(** * The IOC container of the dependency-injection library

    A shallow embedding of [src/IOCContainer.ts] (with the error class of
    [src/DependencyInjectionError.ts] and the types of [src/types.d.ts]),
    followed by the properties of the resolution engine.

    The container is a class with static members only, so there is exactly
    one container per program: its four maps are the fields of
    [IOCContainer] below, and every method is a computation over a [state]
    that holds the container next to the rest of the running program.

    Constructors and resolver callbacks are code of the program, not of the
    container.  They run on the same state as the container's methods, so
    they can call back into the container; what such code can do is given
    by [code] below. *)

From stdpp Require Import gmap strings list fin_maps countable.


(** ** JavaScript values, as far as the container observes them *)

(** Object identity.  Two JavaScript objects are the same object exactly
    when their references are equal. *)
Abbreviation ref := positive.

Inductive nullish := JsNull | JsUndefined.

(** What may be passed as a scope owner, or come back from a resolver
    callback (both typed [any] in the source). *)
Inductive value :=
| VNull
| VUndefined
| VString (s : string)
| VObject (r : ref).

(** [type DependencyInjectionType = "Singleton" | "Scoped" | "Transient"] *)
Inductive DependencyInjectionType := Singleton | Scoped | Transient.

(** [type Constructor<T> = new (...args: any[]) => T]: a class, known to the
    container by its identity only; what running it does is given by
    [construct] in the section below. *)
Abbreviation Constructor := positive.

(** A resolver callback [(dependency: string) => any], again known by its
    identity. *)
Abbreviation callback := positive.

(** [type Dependency = { injectionType; implementation }] *)
Record Dependency := {
  injectionType : DependencyInjectionType;
  implementation : Constructor
}.

(** What user code may throw: any JavaScript value.  The container reads
    one thing from it, its [message] property; [None] stands for a value
    that has no such property. *)
Inductive thrown :=
| ThrownNullish (n : nullish)
| ThrownObject (r : ref) (message : option string).

(** The origin recorded with a dependency reference ([origin: any]).  The
    container reads [origin.constructor.name] and nothing else. *)
Inductive origin :=
| OriginNullish (n : nullish)
| OriginBare
| OriginOf (constructor_name : string).

(** [class DependencyInjectionError extends Error]: the constructor takes the
    message and fixes the name; the object has no other field. *)
Record DependencyInjectionError := {
  name : string;
  message : string
}.

Definition new_DependencyInjectionError (message : string) : DependencyInjectionError :=
  {| name := "DependencyInjectionError"; message := message |}.

(** Everything that can reach a caller of the container as an exception:
    the container's own error, the engine's errors (a property read on
    [null] or [undefined]; no room left on the call stack), and whatever
    user code throws. *)
Inductive exception :=
| DIError (e : DependencyInjectionError)
| TypeError (message : string)
| RangeError (message : string)
| Thrown (t : thrown).

Inductive completion (A : Type) :=
| Return (a : A)
| Throw (e : exception).
Arguments Return {A} a.
Arguments Throw {A} e.

(** Calls the container makes into code it does not own. *)
Inductive event :=
| Constructed (c : Constructor)
| Invoked (cb : callback) (dependency : string).

#[global] Instance nullish_eq_dec : EqDecision nullish.
Proof. solve_decision. Defined.
#[global] Instance value_eq_dec : EqDecision value.
Proof. solve_decision. Defined.
#[global] Instance DependencyInjectionType_eq_dec : EqDecision DependencyInjectionType.
Proof. solve_decision. Defined.
#[global] Instance Dependency_eq_dec : EqDecision Dependency.
Proof. solve_decision. Defined.
#[global] Instance thrown_eq_dec : EqDecision thrown.
Proof. solve_decision. Defined.
#[global] Instance origin_eq_dec : EqDecision origin.
Proof. solve_decision. Defined.
#[global] Instance event_eq_dec : EqDecision event.
Proof. solve_decision. Defined.
#[global] Instance DependencyInjectionError_eq_dec : EqDecision DependencyInjectionError.
Proof. solve_decision. Defined.
#[global] Instance exception_eq_dec : EqDecision exception.
Proof. solve_decision. Defined.

Definition value_to_sum (v : value) : (bool + (string + positive)) :=
  match v with
  | VNull => inl true
  | VUndefined => inl false
  | VString s => inr (inl s)
  | VObject r => inr (inr r)
  end.

Definition value_of_sum (x : bool + (string + positive)) : value :=
  match x with
  | inl true => VNull
  | inl false => VUndefined
  | inr (inl s) => VString s
  | inr (inr r) => VObject r
  end.

#[global] Instance value_countable : Countable value.
Proof. by apply (inj_countable' value_to_sum value_of_sum); intros []. Defined.

(** ** The container *)

(** The four static maps of the class.  [implementations], [instances] and
    [scopes] are only ever read by key; [dependencyReferences] is iterated,
    so it keeps the insertion order a JavaScript [Map] has. *)
Record IOCContainer := {
  implementations : gmap string Dependency;
  instances : gmap Constructor value;
  scopes : gmap value callback;
  dependencyReferences : list (string * origin)
}.

Definition empty_container : IOCContainer :=
  {| implementations := ∅; instances := ∅; scopes := ∅; dependencyReferences := [] |}.

(** [Map.prototype.set] on an insertion-ordered map: an existing key keeps
    its place and gets the new value, a new key goes to the end. *)
Fixpoint map_set {V : Type} (k : string) (v : V) (l : list (string * V)) : list (string * V) :=
  match l with
  | [] => [(k, v)]
  | (k', v') :: l' =>
      if decide (k = k') then (k, v) :: l' else (k', v') :: map_set k v l'
  end.

(** The engine's complaints: about a property read on [null] or
    [undefined], and about a call stack that is full. *)
Definition nullish_text (n : nullish) : string :=
  match n with JsNull => "null" | JsUndefined => "undefined" end.

Definition cannot_read (n : nullish) (property : string) : exception :=
  TypeError ("Cannot read properties of " +:+ nullish_text n +:+
             " (reading '" +:+ property +:+ "')").

Definition stack_overflow : exception :=
  RangeError "Maximum call stack size exceeded".

(** [origin.constructor.name] *)
Definition constructor_name_of (o : origin) : completion string :=
  match o with
  | OriginNullish n => Throw (cannot_read n "constructor")
  | OriginBare => Throw (cannot_read JsUndefined "name")
  | OriginOf n => Return n
  end.

(** [`${error.message}`] for a caught [error]. *)
Definition message_of (error : exception) : completion string :=
  match error with
  | DIError e => Return (message e)
  | TypeError m => Return m
  | RangeError m => Return m
  | Thrown (ThrownNullish n) => Throw (cannot_read n "message")
  | Thrown (ThrownObject _ m) => Return (default "undefined" m)
  end.

Record DependencyResolutionResult := {
  valid : bool;
  errors : list string
}.


Section Container.

Context {world : Type}.

(** The container, the rest of the program's memory ([env]), the
    program's allocator ([next_ref], the next object reference not in use:
    the container's [new] and the object creations of user code draw from
    it), and the runs of constructors and resolvers that the container has
    started so far (oldest first). *)
Record state := {
  ioc : IOCContainer;
  env : world;
  next_ref : ref;
  trace : list event
}.

(** A method of the container, or a piece of user code: it runs on a
    state, leaves a state, and either returns or throws.  A throw keeps the
    writes made before it. *)
Definition M (A : Type) : Type := state → state * completion A.

#[global] Instance M_ret : MRet M := λ A a s, (s, Return a).

#[global] Instance M_bind : MBind M := λ A B k m s,
  match m s with
  | (s', Return a) => k a s'
  | (s', Throw e) => (s', Throw e)
  end.

Definition throw {A : Type} (e : exception) : M A := λ s, (s, Throw e).

Definition lift {A : Type} (c : completion A) : M A := λ s, (s, c).

Definition gets {A : Type} (f : IOCContainer → A) : M A := λ s, (s, Return (f (ioc s))).

Definition modify (f : IOCContainer → IOCContainer) : M unit := λ s,
  ({| ioc := f (ioc s); env := env s; next_ref := next_ref s; trace := trace s |},
   Return tt).

(** [try { body } catch (error) { handler }] *)
Definition try_catch {A : Type} (body : M A) (handler : exception → M A) : M A := λ s,
  match body s with
  | (s', Return a) => (s', Return a)
  | (s', Throw error) => handler error s'
  end.

Definition set_implementation (token : string) (d : Dependency) (c : IOCContainer) : IOCContainer :=
  {| implementations := <[token := d]> (implementations c);
     instances := instances c;
     scopes := scopes c;
     dependencyReferences := dependencyReferences c |}.

Definition set_instance (k : Constructor) (v : value) (c : IOCContainer) : IOCContainer :=
  {| implementations := implementations c;
     instances := <[k := v]> (instances c);
     scopes := scopes c;
     dependencyReferences := dependencyReferences c |}.

Definition set_scope (k : value) (resolve : callback) (c : IOCContainer) : IOCContainer :=
  {| implementations := implementations c;
     instances := instances c;
     scopes := <[k := resolve]> (scopes c);
     dependencyReferences := dependencyReferences c |}.

Definition delete_scope (k : value) (c : IOCContainer) : IOCContainer :=
  {| implementations := implementations c;
     instances := instances c;
     scopes := delete k (scopes c);
     dependencyReferences := dependencyReferences c |}.

Definition set_dependencyReference (token : string) (o : origin) (c : IOCContainer) : IOCContainer :=
  {| implementations := implementations c;
     instances := instances c;
     scopes := scopes c;
     dependencyReferences := map_set token o (dependencyReferences c) |}.

(** The state in which the body of a constructor starts when the container
    evaluates [new implementation()]: the new object has been created (it
    is [next_ref] of the state before) and the run is on record. *)
Definition constructing (implementation : Constructor) (s : state) : state :=
  {| ioc := ioc s; env := env s; next_ref := Pos.succ (next_ref s);
     trace := trace s ++ [Constructed implementation] |}.

(** The state in which a resolver starts when the container calls it. *)
Definition calling (resolve : callback) (dependency : string) (s : state) : state :=
  {| ioc := ioc s; env := env s; next_ref := next_ref s;
     trace := trace s ++ [Invoked resolve dependency] |}.

(** What [new] yields for a constructor run on the new object [this]: the
    object the body returned, if it returned one, and [this] otherwise. *)
Definition instance_of (this : ref) (returned : option ref) : value :=
  VObject (default this returned).

(** The state with [instance] stored in the cache under [implementation]. *)
Definition cached (implementation : Constructor) (instance : value) (s : state) : state :=
  {| ioc := set_instance implementation instance (ioc s);
     env := env s; next_ref := next_ref s; trace := trace s |}.

(** The user code the container runs.  [construct c this] is the body of
    the class [c] run on the new object [this]; it returns [Some o] when
    the body returns an object [o] of its own and [None] otherwise, or it
    throws.  [invoke r dependency] is the resolver [r] applied to
    [dependency].  Both run on the whole state: they may use the
    container. *)
Variable construct : Constructor → ref → M (option ref).
Variable invoke : callback → string → M value.

(** [new implementation()] *)
Definition new_instance (implementation : Constructor) : M value := λ s,
  match construct implementation (next_ref s) (constructing implementation s) with
  | (s', Return returned) => (s', Return (instance_of (next_ref s) returned))
  | (s', Throw error) => (s', Throw error)
  end.

(** [resolve(dependency)] for a callback taken from the scope table. *)
Definition call (resolve : callback) (dependency : string) : M value := λ s,
  invoke resolve dependency (calling resolve dependency s).

(** [IOCContainer.register] *)
Definition register (token : string) (injectionType : DependencyInjectionType)
    (implementation : Constructor) : M unit :=
  has ← gets (λ c, bool_decide (is_Some (implementations c !! token)));
  if (has : bool) then
    throw (DIError (new_DependencyInjectionError
      ("There already is a class named " +:+ token +:+ " registered.")))
  else
    modify (set_implementation token
      {| injectionType := injectionType; implementation := implementation |}).

(** [IOCContainer.resolve] *)
Definition resolve (token : string) : M value :=
  injection ← gets (λ c, implementations c !! token);
  match injection with
  | None =>
      throw (DIError (new_DependencyInjectionError
        ("Class constructor for " +:+ token +:+
         " not found. Did you forget to add the @Singleton decorator to the class?")))
  | Some injection =>
      if bool_decide (injectionType injection ≠ Singleton) then
        new_instance (implementation injection)
      else
        try_catch
          (has ← gets (λ c, bool_decide (is_Some (instances c !! implementation injection)));
           if (has : bool) then mret tt
           else
             instance ← new_instance (implementation injection);
             modify (set_instance (implementation injection) instance))
          (λ error,
             text ← lift (message_of error);
             throw (DIError (new_DependencyInjectionError
               ("Failed to create an instance of " +:+ token +:+ ". " +:+ text))));;
        gets (λ c, default VUndefined (instances c !! implementation injection))
  end.

(** [IOCContainer.getInjectionType]; [None] is the source's [null]. *)
Definition getInjectionType (token : string) : M (option DependencyInjectionType) :=
  gets (λ c, injectionType <$> implementations c !! token).

(** [IOCContainer.registerScope] *)
Definition registerScope (instance : value) (resolve : callback) : M unit :=
  modify (set_scope instance resolve).

(** [IOCContainer.resolveScope]; a resolver is a function, hence truthy. *)
Definition resolveScope (instance : value) (dependency : string) : M value :=
  resolve ← gets (λ c, scopes c !! instance);
  match resolve with
  | Some resolve => call resolve dependency
  | None => mret VNull
  end.

(** [IOCContainer.cleanScope] *)
Fixpoint cleanScope (scopes : list value) : M unit :=
  match scopes with
  | [] => mret tt
  | scope :: rest => modify (delete_scope scope);; cleanScope rest
  end.

(** [IOCContainer.addDependencyReference] *)
Definition addDependencyReference (token : string) (o : origin) : M unit :=
  modify (set_dependencyReference token o).

(** The body of the [for ... of] loop of [testDependencyReferences], run
    over the entries that are left, with the two locals [valid] and
    [errors] threaded through. *)
Fixpoint testLoop (entries : list (string * origin)) (valid : bool) (errors : list string)
    : M DependencyResolutionResult :=
  match entries with
  | [] => mret {| valid := valid; errors := errors |}
  | (token, o) :: rest =>
      dependency ← gets (λ c, implementations c !! token);
      match dependency with
      | None =>
          n ← lift (constructor_name_of o);
          testLoop rest false
            (errors ++ [n +:+ ": The dependency " +:+ token +:+ " is not registered"])
      | Some dependency =>
          if bool_decide (injectionType dependency = Scoped) then
            n ← lift (constructor_name_of o);
            originDependency ← gets (λ c, implementations c !! n);
            match originDependency with
            | Some originDependency =>
                if bool_decide (injectionType originDependency ≠ Scoped) then
                  testLoop rest false
                    (errors ++ [n +:+ ": The scoped dependency " +:+ token +:+
                                " cannot be resolved from a non-scoped class"])
                else testLoop rest valid errors
            | None => testLoop rest valid errors
            end
          else testLoop rest valid errors
      end
  end.

(** [IOCContainer.testDependencyReferences] *)
Definition testDependencyReferences : M DependencyResolutionResult :=
  entries ← gets dependencyReferences;
  testLoop entries true [].

(** A call of one of the container's public methods, what it hands back,
    and the state a program is in after a series of them. *)
Inductive api_call :=
| Register (token : string) (injectionType : DependencyInjectionType)
    (implementation : Constructor)
| Resolve (token : string)
| GetInjectionType (token : string)
| RegisterScope (instance : value) (resolve : callback)
| ResolveScope (instance : value) (dependency : string)
| CleanScope (scopes : list value)
| AddDependencyReference (token : string) (o : origin)
| TestDependencyReferences.

Inductive api_result :=
| Nothing
| Value (v : value)
| InjectionType (l : option DependencyInjectionType)
| Validation (r : DependencyResolutionResult).

Definition perform (call : api_call) : M api_result :=
  match call with
  | Register token l c => register token l c;; mret Nothing
  | Resolve token => v ← resolve token; mret (Value v)
  | GetInjectionType token => l ← getInjectionType token; mret (InjectionType l)
  | RegisterScope instance resolve => registerScope instance resolve;; mret Nothing
  | ResolveScope instance dependency =>
      v ← resolveScope instance dependency; mret (Value v)
  | CleanScope scopes => cleanScope scopes;; mret Nothing
  | AddDependencyReference token o => addDependencyReference token o;; mret Nothing
  | TestDependencyReferences => r ← testDependencyReferences; mret (Validation r)
  end.

Definition step (call : api_call) (s : state) : state := (perform call s).1.

Definition run (calls : list api_call) (s : state) : state :=
  foldl (λ s call, step call s) s calls.

End Container.

Arguments state : clear implicits.
Arguments M : clear implicits.

(** A program starts with an empty container and no object created. *)
Definition initial {world : Type} (w : world) : state world :=
  {| ioc := empty_container; env := w; next_ref := 1%positive; trace := [] |}.

(** ** User code

    What the body of a constructor or a resolver can do: return, throw,
    read and write the program's own memory, create an object, and call a
    public method of the container and go on with what the call handed
    back or threw.  The container's maps are [private static]: user code
    reaches them through the public methods only. *)
Inductive code (world R : Type) : Type :=
| Done (r : R)
| Raise (e : exception)
| Ask (k : world → code world R)
| Tell (w : world) (k : code world R)
| Alloc (k : ref → code world R)
| Api (call : api_call) (k : completion api_result → code world R).
Arguments Done {world R} r.
Arguments Raise {world R} e.
Arguments Ask {world R} k.
Arguments Tell {world R} w k.
Arguments Alloc {world R} k.
Arguments Api {world R} call k.

(** The classes and resolvers of a program. *)
Record program (world : Type) := {
  constructor_body : Constructor → ref → code world (option ref);
  resolver_body : callback → string → code world value
}.
Arguments constructor_body {world} p c this.
Arguments resolver_body {world} p r dependency.

(** Running user code, given what a call of the container does. *)
Fixpoint exec {world R : Type} (api : api_call → M world api_result)
    (p : code world R) : M world R :=
  match p with
  | Done r => mret r
  | Raise e => throw e
  | Ask k => λ s, exec api (k (env s)) s
  | Tell w k => λ s,
      exec api k {| ioc := ioc s; env := w; next_ref := next_ref s; trace := trace s |}
  | Alloc k => λ s,
      exec api (k (next_ref s))
        {| ioc := ioc s; env := env s; next_ref := Pos.succ (next_ref s);
           trace := trace s |}
  | Api call k => λ s, let (s', r) := api call s in exec api (k r) s'
  end.

(** The user code of a program when the call stack has room for [depth]
    more runs of user code nested in one another: with no room left a run
    ends at once in the engine's [RangeError]; otherwise the body runs, and
    the container calls it makes run user code with one level less. *)
Fixpoint user_at {world : Type} (P : program world) (depth : nat)
    : (Constructor → ref → M world (option ref)) * (callback → string → M world value) :=
  match depth with
  | 0 => (λ _ _, throw stack_overflow, λ _ _, throw stack_overflow)
  | S n =>
      let below := user_at P n in
      let api := perform below.1 below.2 in
      (λ c this, exec api (constructor_body P c this),
       λ r dependency, exec api (resolver_body P r dependency))
  end.

Definition construct_at {world : Type} (P : program world) (depth : nat)
    : Constructor → ref → M world (option ref) := (user_at P depth).1.

Definition invoke_at {world : Type} (P : program world) (depth : nat)
    : callback → string → M world value := (user_at P depth).2.

(** ** Vocabulary of the properties *)

(** [needle] occurs in [text]. *)
Definition occurs_in (needle text : string) : Prop :=
  ∃ before after : string, text = before +:+ needle +:+ after.

(** How often the constructor [c] has been run so far. *)
Definition invocations {world : Type} (c : Constructor) (s : state world) : nat :=
  length (filter (λ e, e = Constructed c) (trace s)).

(** The object [r] has been created: by the container's [new] or by user
    code. *)
Definition allocated {world : Type} (s : state world) (r : ref) : Prop :=
  (r < next_ref s)%positive.



(** [s'] comes after [s]: what was registered is registered, what was
    cached is cached, no object has been forgotten, and the record of runs
    has only grown. *)
Definition extends {world : Type} (s s' : state world) : Prop :=
  (∀ token d, implementations (ioc s) !! token = Some d →
              implementations (ioc s') !! token = Some d) ∧
  (∀ c v, instances (ioc s) !! c = Some v → instances (ioc s') !! c = Some v) ∧
  (next_ref s ≤ next_ref s')%positive ∧
  trace s `prefix_of` trace s'.

Definition keeps {world A : Type} (m : M world A) : Prop := ∀ s, extends s (m s).1.

(** The origin has a constructor with a name, as every origin recorded by
    the [Inject] decorator (a class prototype) has. *)
Definition has_name (o : origin) : bool :=
  match o with OriginOf _ => true | _ => false end.

(** The validator reads the origin's name for a token that is not
    registered or is registered Scoped, and for no other. *)
Definition inspects (registry : gmap string Dependency) (token : string) : bool :=
  match injectionType <$> registry !! token with
  | None | Some Scoped => true
  | Some _ => false
  end.

(** Every origin whose name the validator reads has one. *)
Definition names_readable (c : IOCContainer) : bool :=
  forallb (λ '(token, o), implb (inspects (implementations c) token) (has_name o))
    (dependencyReferences c).

(** *** The validator as the specification words it

    For every recorded pair: a token without registration is a finding;
    otherwise a Scoped token referenced from an origin that is registered
    and not Scoped is a finding; an origin without registration is
    skipped; everything else contributes nothing. *)
Inductive finding :=
| NotRegistered (origin_name token : string)
| ScopeCrossing (origin_name token : string).

Definition spec_finding (registry : gmap string Dependency) (token origin_name : string)
    : option finding :=
  match injectionType <$> registry !! token with
  | None => Some (NotRegistered origin_name token)
  | Some Scoped =>
      match injectionType <$> registry !! origin_name with
      | None => None
      | Some Scoped => None
      | Some _ => Some (ScopeCrossing origin_name token)
      end
  | Some _ => None
  end.

Definition spec_findings (registry : gmap string Dependency)
    (references : list (string * string)) : list finding :=
  omap (λ '(token, origin_name), spec_finding registry token origin_name) references.

(** The text the source gives each finding. *)
Definition render (f : finding) : string :=
  match f with
  | NotRegistered o token =>
      o +:+ ": The dependency " +:+ token +:+ " is not registered"
  | ScopeCrossing o token =>
      o +:+ ": The scoped dependency " +:+ token +:+
      " cannot be resolved from a non-scoped class"
  end.

Definition spec_testReferences (registry : gmap string Dependency)
    (references : list (string * string)) : DependencyResolutionResult :=
  let found := spec_findings registry references in
  {| valid := bool_decide (found = []); errors := render <$> found |}.

(** The name of an origin that has one. *)
Definition origin_name (o : origin) : string :=
  match o with OriginOf n => n | _ => "" end.

(** The recorded pairs, each origin replaced by its constructor's name. *)
Definition named_references (entries : list (string * origin)) : list (string * string) :=
  (λ '(token, o), (token, origin_name o)) <$> entries.

(** The token a finding is about. *)
Definition finding_token (f : finding) : string :=
  match f with NotRegistered _ token | ScopeCrossing _ token => token end.

(** No token is recorded twice in the reference table. *)
Definition keys_unique {V : Type} (l : list (string * V)) : Prop := NoDup (l.*1).

(** ** The decorators, the injected property, the example's scope manager *)

(** [Map.prototype.get] on an insertion-ordered map. *)
Fixpoint map_get {V : Type} (k : string) (l : list (string * V)) : option V :=
  match l with
  | [] => None
  | (k', v) :: l' => if decide (k = k') then Some v else map_get k l'
  end.

(** What a class decorator may be applied to ([implementation: any]), as
    far as [isClass] and the decorators look at it: whether it is a
    function, its [name], its [prototype], the function found in
    [prototype.constructor] and the prototype's own property names. *)
Record prototype := {
  proto_constructor : option Constructor;
  own_property_names : list string
}.

Record function_object := {
  fn_ref : Constructor;
  fn_name : string;
  fn_prototype : option prototype
}.

Inductive candidate :=
| CandidateNullish (n : nullish)
| CandidateValue (name : option string)
| CandidateFunction (f : function_object).

(** [isClass] of [src/isClass.ts] *)
Definition isClass (value : candidate) : bool :=
  match value with
  | CandidateFunction f =>
      match fn_prototype f with
      | None => false
      | Some p =>
          if bool_decide (proto_constructor p ≠ Some (fn_ref f)) then false
          else bool_decide (1 < length (own_property_names p))
      end
  | _ => false
  end.

(** [`${implementation.name}`] *)
Definition name_of (implementation : candidate) : completion string :=
  match implementation with
  | CandidateNullish n => Throw (cannot_read n "name")
  | CandidateValue n => Return (default "undefined" n)
  | CandidateFunction f => Return (fn_name f)
  end.

(** The three class decorators.  A candidate that passed [isClass] is a
    function, and it is registered under its own name. *)
Module Decorators.

Definition Singleton {world : Type} (implementation : candidate) : M world unit :=
  if negb (isClass implementation) then
    n ← lift (name_of implementation);
    throw (DIError (new_DependencyInjectionError
      ("Failed to register class definition for " +:+ n +:+
       ". The implementation is not a class.")))
  else
    match implementation with
    | CandidateFunction f => register (fn_name f) Singleton (fn_ref f)
    | _ => mret tt
    end.

Definition Scoped {world : Type} (implementation : candidate) : M world unit :=
  if negb (isClass implementation) then
    n ← lift (name_of implementation);
    throw (DIError (new_DependencyInjectionError
      ("Failed to register class definition for " +:+ n +:+
       ". The implementation is not a class.")))
  else
    match implementation with
    | CandidateFunction f => register (fn_name f) Scoped (fn_ref f)
    | _ => mret tt
    end.

Definition Transient {world : Type} (implementation : candidate) : M world unit :=
  if negb (isClass implementation) then
    n ← lift (name_of implementation);
    throw (DIError (new_DependencyInjectionError
      ("Failed to register class definition for " +:+ n +:+
       ". The implementation is not a class.")))
  else
    match implementation with
    | CandidateFunction f => register (fn_name f) Transient (fn_ref f)
    | _ => mret tt
    end.

End Decorators.

(** The decorator for a lifecycle. *)
Definition decorator {world : Type} (l : DependencyInjectionType)
    : candidate → M world unit :=
  match l with
  | Singleton => Decorators.Singleton
  | Scoped => Decorators.Scoped
  | Transient => Decorators.Transient
  end.

(** The getter that [Inject(dependency)] defines on the decorated property:
    [IOCContainer.resolveScope(this, dependency) ?? IOCContainer.resolve(dependency)].
    (At decoration time [Inject] calls [addDependencyReference] with the
    decorated prototype as origin.) *)
Definition Inject_getter {world : Type}
    (construct : Constructor → ref → M world (option ref))
    (invoke : callback → string → M world value)
    (this : value) (dependency : string) : M world value :=
  scoped ← resolveScope invoke this dependency;
  match scoped with
  | VNull | VUndefined => resolve construct dependency
  | _ => mret scoped
  end.

(** The scope manager of the example application: the function [resolve]
    inside [handleRequest], with the request's [scopedDependencies] map
    passed in and handed back.  [self] is the function itself, as it is
    given to [registerScope].  The map is written only after the last step
    that can throw, so after a throw it is the map that was passed in. *)
Definition handleRequest_resolve {world : Type}
    (construct : Constructor → ref → M world (option ref))
    (self : callback) (key : string) (scopedDependencies : list (string * value))
    : M world (value * list (string * value)) :=
  match map_get key scopedDependencies with
  | Some found => mret (found, scopedDependencies)
  | None =>
      resolvedDependency ← resolve construct key;
      l ← getInjectionType key;
      if bool_decide (l = Some Scoped) then
        registerScope (VString key) self;;
        mret (resolvedDependency, map_set key resolvedDependency scopedDependencies)
      else mret (resolvedDependency, scopedDependencies)
  end.

(** [IOCContainer.cleanScope(scopedDependencies.values())] at the end of
    [handleRequest]. *)
Definition handleRequest_cleanup {world : Type}
    (scopedDependencies : list (string * value)) : M world unit :=
  cleanScope (scopedDependencies.*2).

(** ** A small program to run the container on

    Its memory counts the runs of its counting classes and may hold one
    object shared by all instances of class 21.

    Classes 2 and 3 throw two different [Error] objects that carry the same
    message; class 4 throws [null].  Class 21 returns the shared object
    from its constructor, creating it the first time.  Class 22 resolves
    the token "Self" from inside its constructor the first time it runs.
    Class 23 resolves the token "Db" and then throws.  Class 24 throws the
    first time it runs and completes from then on.  Every other class
    counts the run and completes.

    Resolver 1 answers every lookup with [null], resolver 2 with a fixed
    object, resolver 3 by asking the container to resolve the dependency,
    as the scope manager of the documentation does; any other resolver
    throws. *)
Module Demo.

Record memory := { runs : nat; shared : option ref }.

Definition classes (c : Constructor) (this : ref) : code memory (option ref) :=
  match c with
  | 2%positive => Raise (Thrown (ThrownObject 100 (Some "boom")))
  | 3%positive => Raise (Thrown (ThrownObject 101 (Some "boom")))
  | 4%positive => Raise (Thrown (ThrownNullish JsNull))
  | 21%positive =>
      Ask (λ w,
        match shared w with
        | Some o => Done (Some o)
        | None => Alloc (λ o, Tell {| runs := runs w; shared := Some o |} (Done (Some o)))
        end)
  | 22%positive =>
      Ask (λ w,
        match runs w with
        | 0 => Tell {| runs := 1; shared := shared w |}
                 (Api (Resolve "Self") (λ _, Done None))
        | _ => Done None
        end)
  | 23%positive =>
      Api (Resolve "Db") (λ _, Raise (Thrown (ThrownObject 100 (Some "boom"))))
  | 24%positive =>
      Ask (λ w,
        match runs w with
        | 0 => Tell {| runs := 1; shared := shared w |}
                 (Raise (Thrown (ThrownObject 100 (Some "not yet"))))
        | _ => Done None
        end)
  | _ => Ask (λ w, Tell {| runs := S (runs w); shared := shared w |} (Done None))
  end.

Definition resolvers (r : callback) (dependency : string) : code memory value :=
  match r with
  | 1%positive => Done VNull
  | 2%positive => Done (VObject 7)
  | 3%positive =>
      Api (Resolve dependency) (λ result,
        match result with
        | Return (Value v) => Done v
        | Return _ => Done VUndefined
        | Throw e => Raise e
        end)
  | _ => Raise (Thrown (ThrownObject 102 (Some dependency)))
  end.

Definition app : program memory :=
  {| constructor_body := classes; resolver_body := resolvers |}.

(** Room on the call stack. *)
Definition depth : nat := 6.

Definition construct : Constructor → ref → M memory (option ref) := construct_at app depth.
Definition invoke : callback → string → M memory value := invoke_at app depth.

Definition start : state memory := initial {| runs := 0; shared := None |}.

(** The state left by a method, and its completion. *)
Definition after {A : Type} (m : M memory A) (s : state memory) : state memory := (m s).1.
Definition outcome {A : Type} (m : M memory A) (s : state memory) : completion A := (m s).2.

End Demo.

(** What a decorator can meet: two classes of the same name with a method
    each, a class with no member, an arrow function. *)
Module Samples.

Definition UserService : function_object :=
  {| fn_ref := 20; fn_name := "UserService";
     fn_prototype := Some {| proto_constructor := Some 20%positive;
                             own_property_names := ["constructor"; "getUser"] |} |}.

Definition OtherUserService : function_object :=
  {| fn_ref := 22; fn_name := "UserService";
     fn_prototype := Some {| proto_constructor := Some 22%positive;
                             own_property_names := ["constructor"; "find"] |} |}.

Definition Empty : function_object :=
  {| fn_ref := 21; fn_name := "Empty";
     fn_prototype := Some {| proto_constructor := Some 21%positive;
                             own_property_names := ["constructor"] |} |}.

Definition arrow : function_object :=
  {| fn_ref := 23; fn_name := "arrow"; fn_prototype := None |}.

End Samples.

(** * Properties *)

Lemma append_assoc (a b c : string) : (a +:+ b) +:+ c = a +:+ (b +:+ c).
Proof.
  induction a as [|x a IH]; [done |].
  change (String x ((a +:+ b) +:+ c) = String x (a +:+ (b +:+ c))). by f_equal.
Qed.

Lemma append_empty_r (a : string) : a +:+ "" = a.
Proof.
  induction a as [|x a IH]; [done |].
  change (String x (a +:+ "") = String x a). by f_equal.
Qed.

Section Resolution.

Context {world : Type}.
Variable construct : Constructor → ref → M world (option ref).

Implicit Types (s : state world) (token : string) (c : Constructor).

Local Ltac run := unfold mbind, M_bind, mret, M_ret, gets, modify, throw, lift; simpl.

(** ** How [register] and [resolve] run, case by case *)

Lemma register_taken s token l c d :
  implementations (ioc s) !! token = Some d →
  register token l c s =
    (s, Throw (DIError (new_DependencyInjectionError
          ("There already is a class named " +:+ token +:+ " registered.")))).
Proof.
  intros Hd. unfold register. run.
  rewrite bool_decide_eq_true_2; [done | by rewrite Hd].
Qed.

Lemma register_free s token l c :
  implementations (ioc s) !! token = None →
  register token l c s =
    ({| ioc := set_implementation token {| injectionType := l; implementation := c |} (ioc s);
        env := env s; next_ref := next_ref s; trace := trace s |},
     Return tt).
Proof.
  intros Hd. unfold register. run.
  rewrite bool_decide_eq_false_2; [done | rewrite Hd; by intros [? ?]].
Qed.

Lemma resolve_unregistered s token :
  implementations (ioc s) !! token = None →
  resolve construct token s =
    (s, Throw (DIError (new_DependencyInjectionError
          ("Class constructor for " +:+ token +:+
           " not found. Did you forget to add the @Singleton decorator to the class?")))).
Proof. intros Hd. unfold resolve. run. by rewrite Hd. Qed.

Lemma resolve_not_singleton s token d :
  implementations (ioc s) !! token = Some d →
  injectionType d ≠ Singleton →
  resolve construct token s = new_instance construct (implementation d) s.
Proof.
  intros Hd Hl. unfold resolve. run. rewrite Hd.
  by rewrite bool_decide_eq_true_2.
Qed.

Lemma resolve_cached s token c v :
  implementations (ioc s) !! token = Some {| injectionType := Singleton; implementation := c |} →
  instances (ioc s) !! c = Some v →
  resolve construct token s = (s, Return v).
Proof.
  intros Hd Hc. unfold resolve. run. rewrite Hd. simpl.
  unfold try_catch. run.
  rewrite bool_decide_eq_true_2; [| by rewrite Hc]. by rewrite Hc.
Qed.

Lemma resolve_materialises s token c s' returned :
  implementations (ioc s) !! token = Some {| injectionType := Singleton; implementation := c |} →
  instances (ioc s) !! c = None →
  construct c (next_ref s) (constructing c s) = (s', Return returned) →
  resolve construct token s =
    (cached c (instance_of (next_ref s) returned) s',
     Return (instance_of (next_ref s) returned)).
Proof.
  intros Hd Hc Hw. unfold resolve. run. rewrite Hd. simpl.
  unfold try_catch. run.
  rewrite bool_decide_eq_false_2; [| rewrite Hc; by intros [? ?]].
  unfold new_instance. rewrite Hw. simpl. unfold cached.
  by rewrite lookup_insert_eq.
Qed.

Lemma resolve_singleton_throws s token c s' error :
  implementations (ioc s) !! token = Some {| injectionType := Singleton; implementation := c |} →
  instances (ioc s) !! c = None →
  construct c (next_ref s) (constructing c s) = (s', Throw error) →
  resolve construct token s =
    (s',
     match message_of error with
     | Return text =>
         Throw (DIError (new_DependencyInjectionError
           ("Failed to create an instance of " +:+ token +:+ ". " +:+ text)))
     | Throw e => Throw e
     end).
Proof.
  intros Hd Hc Hw. unfold resolve. run. rewrite Hd. simpl.
  unfold try_catch. run.
  rewrite bool_decide_eq_false_2; [| rewrite Hc; by intros [? ?]].
  unfold new_instance. rewrite Hw. simpl.
  by destruct (message_of error).
Qed.

Lemma new_instance_returns s c s' returned :
  construct c (next_ref s) (constructing c s) = (s', Return returned) →
  new_instance construct c s = (s', Return (instance_of (next_ref s) returned)).
Proof. intros Hw. unfold new_instance. by rewrite Hw. Qed.

Lemma new_instance_throws s c s' error :
  construct c (next_ref s) (constructing c s) = (s', Throw error) →
  new_instance construct c s = (s', Throw error).
Proof. intros Hw. unfold new_instance. by rewrite Hw. Qed.

Lemma invocations_snoc s s' c :
  trace s' = trace s ++ [Constructed c] →
  invocations c s' = S (invocations c s).
Proof.
  intros Ht. unfold invocations. rewrite Ht, list.filter_app, length_app.
  rewrite list.filter_cons_True by done. simpl. lia.
Qed.

Lemma occurs_in_middle (before needle after : string) :
  occurs_in needle (before +:+ needle +:+ after).
Proof. by exists before, after. Qed.

Lemma register_runs_nothing s token l c :
  trace (register token l c s).1 = trace s ∧
  instances (ioc (register token l c s).1) = instances (ioc s) ∧
  next_ref (register token l c s).1 = next_ref s ∧
  env (register token l c s).1 = env s.
Proof.
  destruct (implementations (ioc s) !! token) as [d|] eqn:Hd.
  - by rewrite (register_taken _ _ _ _ d).
  - by rewrite register_free.
Qed.

(** ** Singleton: a constructor that throws *)


(** ** Registration and lookup *)

(** C2.  Registering a token that is present throws a
    [DependencyInjectionError] saying so and leaves the state as it was: the
    first registration is still there and the token resolves as before.
    Registering a token that is absent stores the registration and
    returns. *)
Theorem duplicate_registration_rejected s token l c :
  match implementations (ioc s) !! token with
  | Some d =>
      register token l c s =
        (s, Throw (DIError
              {| name := "DependencyInjectionError";
                 message := "There already is a class named " +:+ token +:+
                            " registered." |})) ∧
      implementations (ioc (register token l c s).1) !! token = Some d ∧
      resolve construct token (register token l c s).1 = resolve construct token s
  | None =>
      ∃ s1,
        register token l c s = (s1, Return tt) ∧
        implementations (ioc s1) =
          <[token := {| injectionType := l; implementation := c |}]>
            (implementations (ioc s)) ∧
        implementations (ioc s1) !! token =
          Some {| injectionType := l; implementation := c |} ∧
        instances (ioc s1) = instances (ioc s) ∧
        scopes (ioc s1) = scopes (ioc s) ∧
        dependencyReferences (ioc s1) = dependencyReferences (ioc s) ∧
        trace s1 = trace s
  end.
Proof.
  destruct (implementations (ioc s) !! token) as [d|] eqn:Hd.
  - by rewrite (register_taken _ _ _ _ d).
  - eexists. rewrite register_free by done. simpl.
    repeat split. apply lookup_insert_eq.
Qed.

(** C4.  Resolving a token that has no registration throws a
    [DependencyInjectionError] whose message names the token and asks
    whether the class decorator was forgotten; the state is untouched.
    [getInjectionType] returns [null] for such a token and does not
    throw. *)
Theorem unregistered_lookup s token :
  implementations (ioc s) !! token = None →
  ∃ e,
    resolve construct token s = (s, Throw (DIError e)) ∧
    name e = "DependencyInjectionError" ∧
    message e = "Class constructor for " +:+ token +:+
      " not found. Did you forget to add the @Singleton decorator to the class?" ∧
    occurs_in token (message e) ∧
    occurs_in "Did you forget to add the @Singleton decorator to the class?" (message e) ∧
    getInjectionType token s = (s, Return None).
Proof.
  intros Hd. eexists. rewrite resolve_unregistered by done.
  split; [done |]. split; [done |]. split; [done |]. simpl.
  split; [apply (occurs_in_middle "Class constructor for ") |].
  split.
  - exists ("Class constructor for " +:+ token +:+ " not found. "), "".
    by rewrite append_empty_r, !append_assoc.
  - unfold getInjectionType, gets. by rewrite Hd.
Qed.

End Resolution.

Section Scopes.

Context {world : Type}.
Variable invoke : callback → string → M world value.

Implicit Types (s : state world) (owner : value) (resolver : callback).

Lemma resolveScope_registered s owner resolver dependency :
  scopes (ioc s) !! owner = Some resolver →
  resolveScope invoke owner dependency s = call invoke resolver dependency s.
Proof.
  intros Hr. unfold resolveScope, mbind, M_bind, gets. by rewrite Hr.
Qed.

Lemma resolveScope_unregistered s owner dependency :
  scopes (ioc s) !! owner = None →
  resolveScope invoke owner dependency s = (s, Return VNull).
Proof.
  intros Hr. unfold resolveScope, mbind, M_bind, gets. by rewrite Hr.
Qed.

Lemma cleanScope_runs (owners : list value) s :
  (cleanScope owners s).2 = Return tt ∧
  (∀ k, k ∈ owners → scopes (ioc (cleanScope owners s).1) !! k = None) ∧
  (∀ k, k ∉ owners →
        scopes (ioc (cleanScope owners s).1) !! k = scopes (ioc s) !! k) ∧
  implementations (ioc (cleanScope owners s).1) = implementations (ioc s) ∧
  instances (ioc (cleanScope owners s).1) = instances (ioc s) ∧
  dependencyReferences (ioc (cleanScope owners s).1) = dependencyReferences (ioc s) ∧
  env (cleanScope owners s).1 = env s ∧
  next_ref (cleanScope owners s).1 = next_ref s ∧
  trace (cleanScope owners s).1 = trace s.
Proof.
  revert s. induction owners as [|a owners IH]; intros s.
  - simpl. split; [done |]. split; [by intros k Hk; inversion Hk | done].
  - cbn [cleanScope]. unfold mbind, M_bind, modify.
    match goal with |- context [cleanScope owners ?x] => specialize (IH x) end.
    destruct IH as (Hr & Hin & Hout & Hi & Hc & Hd & He & Hn & Ht). simpl in *.
    split; [done |]. split; [| split; [| done]].
    + intros k Hk. destruct (decide (k ∈ owners)) as [Hk'|Hk']; [by apply Hin |].
      rewrite Hout by done. inversion Hk; subst; [apply lookup_delete_eq | done].
    + intros k Hk. rewrite Hout by (intros ?; apply Hk; by right).
      apply lookup_delete_ne. intros ->. apply Hk. by left.
Qed.


End Scopes.

Section Validator.

Context {world : Type}.

Implicit Types (s : state world) (o : origin) (token : string).

Local Ltac run := unfold mbind, M_bind, mret, M_ret, gets, lift; simpl.

(** One turn of the loop on an entry whose origin can be named when the
    loop asks for the name. *)
Lemma testLoop_step token o rest v e s :
  implb (inspects (implementations (ioc s)) token) (has_name o) = true →
  testLoop ((token, o) :: rest) v e s =
    match spec_finding (implementations (ioc s)) token (origin_name o) with
    | Some f => testLoop rest false (e ++ [render f]) s
    | None => testLoop rest v e s
    end.
Proof.
  unfold inspects, spec_finding. cbn [testLoop]. run.
  destruct (implementations (ioc s) !! token) as [[l c]|] eqn:Hd; simpl.
  - destruct l; simpl; try done.
    destruct o as [n| |n]; simpl; try done. intros _.
    destruct (implementations (ioc s) !! n) as [[l' c']|]; simpl; [| done].
    by destruct l'.
  - by destruct o.
Qed.

(** One turn of the loop on an entry whose origin cannot be named although
    the loop asks for the name. *)
Lemma testLoop_stuck token o rest v e s :
  implb (inspects (implementations (ioc s)) token) (has_name o) = false →
  ∃ x, testLoop ((token, o) :: rest) v e s = (s, Throw (TypeError x)).
Proof.
  unfold inspects. cbn [testLoop]. run.
  destruct (implementations (ioc s) !! token) as [[l c]|] eqn:Hd; simpl.
  - destruct l; simpl; try done. all: destruct o; simpl; try done; by eexists.
  - destruct o; simpl; try done; by eexists.
Qed.

Lemma spec_findings_cons registry token o (rest : list (string * origin)) :
  spec_findings registry (named_references ((token, o) :: rest)) =
    match spec_finding registry token (origin_name o) with
    | Some f => f :: spec_findings registry (named_references rest)
    | None => spec_findings registry (named_references rest)
    end.
Proof. reflexivity. Qed.

Lemma testLoop_refines entries : ∀ v e s,
  forallb (λ '(token, o), implb (inspects (implementations (ioc s)) token) (has_name o))
    entries = true →
  testLoop entries v e s =
    (s, Return
      {| valid := v && bool_decide
           (spec_findings (implementations (ioc s)) (named_references entries) = []);
         errors := e ++ (render <$>
           spec_findings (implementations (ioc s)) (named_references entries)) |}).
Proof.
  induction entries as [|[token o] rest IH]; intros v e s Hall.
  - simpl. run. by rewrite andb_true_r, app_nil_r.
  - simpl in Hall. apply andb_true_iff in Hall as [Hhead Hrest].
    rewrite testLoop_step by done. rewrite spec_findings_cons.
    destruct (spec_finding (implementations (ioc s)) token (origin_name o)) as [f|].
    + rewrite IH by done. rewrite fmap_cons.
      rewrite (bool_decide_eq_false_2 (f :: _ = [])) by done.
      by rewrite andb_false_r, <- app_assoc.
    + by rewrite IH.
Qed.

Lemma testLoop_raises entries : ∀ v e s,
  forallb (λ '(token, o), implb (inspects (implementations (ioc s)) token) (has_name o))
    entries = false →
  ∃ x, testLoop entries v e s = (s, Throw (TypeError x)).
Proof.
  induction entries as [|[token o] rest IH]; intros v e s Hall; [done |].
  simpl in Hall. apply andb_false_iff in Hall.
  destruct (implb (inspects (implementations (ioc s)) token) (has_name o)) eqn:Hhead.
  - destruct Hall as [? | Hrest]; [done |].
    rewrite testLoop_step by done.
    destruct (spec_finding _ _ _); by apply IH.
  - by apply testLoop_stuck.
Qed.

Lemma render_names f :
  match f with
  | NotRegistered o token =>
      occurs_in o (render f) ∧ occurs_in token (render f) ∧
      occurs_in "is not registered" (render f)
  | ScopeCrossing o token =>
      occurs_in o (render f) ∧ occurs_in token (render f) ∧
      occurs_in "cannot be resolved from a non-scoped class" (render f)
  end.
Proof.
  destruct f as [o token | o token]; simpl.
  - split; [by exists "", (": The dependency " +:+ token +:+ " is not registered") |].
    split; [exists (o +:+ ": The dependency "), " is not registered" |
            exists (o +:+ ": The dependency " +:+ token +:+ " "), ""].
    all: by rewrite ?append_empty_r, ?append_assoc.
  - split; [by eexists "", _ |].
    split; [exists (o +:+ ": The scoped dependency "),
                   " cannot be resolved from a non-scoped class" |
            exists (o +:+ ": The scoped dependency " +:+ token +:+ " "), ""].
    all: by rewrite ?append_empty_r, ?append_assoc.
Qed.

(** C6, as the code has it.  When every origin whose name the validator
    reads has a constructor with a name, [testDependencyReferences] returns
    the result the specification describes, computed over the recorded
    pairs in the order of the table:
    a token without registration yields the "is not registered" message
    naming origin and token; a Scoped token whose origin is registered and
    not Scoped yields the scope-crossing message naming origin and token;
    an origin without registration, and every other pair, yields nothing;
    [valid] is true exactly when [errors] is empty.  The state is not
    changed. *)
Theorem testReferences_refines_spec s :
  names_readable (ioc s) = true →
  ∃ r,
    testDependencyReferences s = (s, Return r) ∧
    r = spec_testReferences (implementations (ioc s))
          (named_references (dependencyReferences (ioc s))) ∧
    (valid r = true ↔ errors r = []) ∧
    (valid r = false ↔ errors r ≠ []) ∧
    ∀ f, f ∈ spec_findings (implementations (ioc s))
               (named_references (dependencyReferences (ioc s))) →
      match f with
      | NotRegistered o token =>
          occurs_in o (render f) ∧ occurs_in token (render f) ∧
          occurs_in "is not registered" (render f)
      | ScopeCrossing o token =>
          occurs_in o (render f) ∧ occurs_in token (render f) ∧
          occurs_in "cannot be resolved from a non-scoped class" (render f)
      end.
Proof.
  intros Hnames. eexists. split.
  { unfold testDependencyReferences. run. by apply testLoop_refines. }
  split; [done |]. simpl.
  set (found := spec_findings _ _).
  split; [| split].
  - by destruct found.
  - by destruct found.
  - intros f _. apply render_names.
Qed.

(** C9, as the code has it.  [testDependencyReferences] does not throw,
    and leaves the state alone, when every origin whose name it reads (the
    origin of a token that is not registered or is registered Scoped) has a
    constructor with a name; the findings are then in the returned
    result. *)
Theorem testReferences_returns s :
  names_readable (ioc s) = true →
  ∃ r, testDependencyReferences s = (s, Return r) ∧
       (valid r = false ↔ errors r ≠ []).
Proof.
  intros Hnames. eexists. split.
  { unfold testDependencyReferences. run. by apply testLoop_refines. }
  simpl. by destruct (spec_findings _ _).
Qed.

(** X12.  The other direction: an origin without a name under a token the loop
    inspects makes the call end in a [TypeError]. *)
Lemma testReferences_raises s :
  names_readable (ioc s) = false →
  ∃ x, testDependencyReferences s = (s, Throw (TypeError x)).
Proof.
  intros Hnames. unfold testDependencyReferences. run. by apply testLoop_raises.
Qed.

Lemma testLoop_state entries : ∀ v e s, (testLoop entries v e s).1 = s.
Proof.
  induction entries as [|[token o] rest IH]; intros v e s; [done |].
  destruct (implb (inspects (implementations (ioc s)) token) (has_name o)) eqn:Hhead.
  - rewrite testLoop_step by done. by destruct (spec_finding _ _ _).
  - destruct (testLoop_stuck token o rest v e s Hhead) as [x ->]. done.
Qed.

End Validator.


(** * What user code cannot undo *)

Section Keeping.

Context {world : Type}.

Implicit Types (s : state world) (token : string) (c : Constructor).

Lemma extends_refl s : extends s s.
Proof. by repeat split. Qed.

Lemma extends_trans s1 s2 s3 : extends s1 s2 → extends s2 s3 → extends s1 s3.
Proof.
  intros (Hi & Hc & Hn & Ht) (Hi' & Hc' & Hn' & Ht').
  split; [by intros token d H; apply Hi', Hi |].
  split; [by intros c v H; apply Hc', Hc |].
  split; [lia | by etrans].
Qed.

Lemma extends_same_maps s s' :
  implementations (ioc s') = implementations (ioc s) →
  instances (ioc s') = instances (ioc s) →
  (next_ref s ≤ next_ref s')%positive →
  trace s `prefix_of` trace s' →
  extends s s'.
Proof. intros Hi Hc Hn Ht. repeat split; [by rewrite Hi | by rewrite Hc | done..]. Qed.

Lemma extends_constructing s c : extends s (constructing c s).
Proof.
  apply extends_same_maps; simpl; [done | done | lia | by apply prefix_app_r].
Qed.

Lemma extends_calling s (resolver : callback) dependency :
  extends s (calling resolver dependency s).
Proof.
  apply extends_same_maps; simpl; [done | done | lia | by apply prefix_app_r].
Qed.

Lemma bind_ret_state {A B : Type} (m : M world A) (f : A → B) s :
  ((a ← m; mret (f a)) s).1 = (m s).1.
Proof. unfold mbind, M_bind, mret, M_ret. by destruct (m s) as [s' [a|e]]. Qed.

Lemma resolve_keeps (construct : Constructor → ref → M world (option ref)) token :
  (∀ c this, keeps (construct c this)) → keeps (resolve construct token).
Proof.
  intros Hkeeps s.
  destruct (implementations (ioc s) !! token) as [[l c]|] eqn:Hd.
  2: { rewrite resolve_unregistered by done. apply extends_refl. }
  pose proof (Hkeeps c (next_ref s) (constructing c s)) as Hrun.
  pose proof (extends_constructing s c) as Hstart.
  destruct (decide (l = Singleton)) as [->|Hl].
  - destruct (instances (ioc s) !! c) as [v|] eqn:Hc.
    { rewrite (resolve_cached _ _ _ _ v Hd Hc). apply extends_refl. }
    destruct (construct c (next_ref s) (constructing c s)) as [s' [returned|error]] eqn:Hw.
    + rewrite (resolve_materialises _ _ _ _ _ _ Hd Hc Hw). simpl in *.
      destruct (extends_trans _ _ _ Hstart Hrun) as (Hi & Hk & Hn & Ht).
      repeat split; simpl; try done.
      intros k v Hkv. rewrite lookup_insert_ne; [by apply Hk |]. intros ->. congruence.
    + rewrite (resolve_singleton_throws _ _ _ _ _ _ Hd Hc Hw). simpl in *.
      by apply (extends_trans _ _ _ Hstart).
  - rewrite (resolve_not_singleton _ _ _ _ Hd Hl). simpl. unfold new_instance.
    destruct (construct c (next_ref s) (constructing c s)) as [s' [returned|error]];
      simpl in *; by apply (extends_trans _ _ _ Hstart).
Qed.

Lemma perform_keeps (construct : Constructor → ref → M world (option ref))
    (invoke : callback → string → M world value) :
  (∀ c this, keeps (construct c this)) →
  (∀ r dependency, keeps (invoke r dependency)) →
  ∀ call, keeps (perform construct invoke call).
Proof.
  intros Hc Hi call s.
  destruct call as [token l c | token | token | owner cb | owner dependency
                   | owners | token o | ]; unfold perform.
  - rewrite bind_ret_state.
    destruct (implementations (ioc s) !! token) as [d|] eqn:Hd.
    + rewrite (register_taken _ _ _ _ d) by done. apply extends_refl.
    + rewrite register_free by done. simpl.
      repeat split; simpl; try done.
      intros k d Hk. rewrite lookup_insert_ne; [done |]. intros ->. congruence.
  - rewrite bind_ret_state. by apply resolve_keeps.
  - rewrite bind_ret_state. apply extends_refl.
  - rewrite bind_ret_state. by apply extends_same_maps.
  - rewrite bind_ret_state. unfold resolveScope, mbind, M_bind, gets.
    destruct (scopes (ioc s) !! owner) as [resolver|]; [| apply extends_refl].
    unfold call. eapply extends_trans; [apply extends_calling | apply Hi].
  - rewrite bind_ret_state.
    destruct (cleanScope_runs owners s) as (_ & _ & _ & Hi' & Hc' & _ & _ & Hn & Ht).
    apply extends_same_maps; [done | done | lia | by rewrite Ht].
  - rewrite bind_ret_state. by apply extends_same_maps.
  - rewrite bind_ret_state.
    unfold testDependencyReferences, mbind, M_bind, gets. rewrite testLoop_state.
    apply extends_refl.
Qed.

Lemma exec_keeps {R : Type} (api : api_call → M world api_result) (p : code world R) :
  (∀ call, keeps (api call)) → keeps (exec api p).
Proof.
  intros Hapi. induction p as [r | e | k IH | w k IH | k IH | call k IH]; intros s; simpl.
  - apply extends_refl.
  - apply extends_refl.
  - apply IH.
  - eapply extends_trans; [| apply IH]. by apply extends_same_maps.
  - eapply extends_trans; [| apply IH]. apply extends_same_maps; simpl; [done | done | lia | done].
  - pose proof (Hapi call s) as Hcall.
    destruct (api call s) as [s' r]. simpl in Hcall.
    eapply extends_trans; [exact Hcall | apply IH].
Qed.

Lemma user_at_keeps (P : program world) (depth : nat) :
  (∀ c this, keeps (construct_at P depth c this)) ∧
  (∀ r dependency, keeps (invoke_at P depth r dependency)).
Proof.
  unfold construct_at, invoke_at.
  induction depth as [|n [IHc IHi]]; simpl.
  - split; intros; intros s; apply extends_refl.
  - split; intros; apply exec_keeps; by apply perform_keeps.
Qed.

Lemma run_extends (P : program world) (depth : nat) (calls : list api_call) s :
  extends s (run (construct_at P depth) (invoke_at P depth) calls s).
Proof.
  revert s. induction calls as [|call calls IH]; intros s; [apply extends_refl |].
  simpl. eapply extends_trans; [| apply IH].
  destruct (user_at_keeps P depth) as [Hc Hi]. by apply perform_keeps.
Qed.

End Keeping.

(** * Resolution in a program *)

Section Programs.

Context {world : Type}.
Variable P : program world.
Variable depth : nat.

Implicit Types (s : state world) (token : string) (c : Constructor).

Lemma construct_extends s c s' (r : completion (option ref)) :
  (construct_at P depth) c (next_ref s) (constructing c s) = (s', r) →
  extends s s' ∧ (next_ref s < next_ref s')%positive.
Proof.
  intros Hw. destruct (user_at_keeps P depth) as [Hc _].
  pose proof (Hc c (next_ref s) (constructing c s)) as Hrun. rewrite Hw in Hrun.
  split; [by apply (extends_trans _ _ _ (extends_constructing s c)) |].
  destruct Hrun as (_ & _ & Hn & _). simpl in Hn. lia.
Qed.

Lemma construct_trace s c s' (r : completion (option ref)) :
  (construct_at P depth) c (next_ref s) (constructing c s) = (s', r) →
  ∃ inner, trace s' = trace (constructing c s) ++ inner.
Proof.
  intros Hw. destruct (user_at_keeps P depth) as [Hc _].
  pose proof (Hc c (next_ref s) (constructing c s)) as (_ & _ & _ & [inner Hi]).
  rewrite Hw in Hi. by exists inner.
Qed.

Lemma resolve_singleton_returned s token c s1 v :
  implementations (ioc s) !! token =
    Some {| injectionType := Singleton; implementation := c |} →
  resolve (construct_at P depth) token s = (s1, Return v) →
  instances (ioc s1) !! c = Some v.
Proof.
  intros Hd Hr.
  destruct (instances (ioc s) !! c) as [v'|] eqn:Hc.
  { rewrite (resolve_cached _ _ _ _ v' Hd Hc) in Hr. by injection Hr as <- <-. }
  destruct ((construct_at P depth) c (next_ref s) (constructing c s)) as [s' [returned|error]] eqn:Hw.
  - rewrite (resolve_materialises _ _ _ _ _ _ Hd Hc Hw) in Hr.
    injection Hr as <- <-. simpl. apply lookup_insert_eq.
  - rewrite (resolve_singleton_throws _ _ _ _ _ _ Hd Hc Hw) in Hr.
    by destruct (message_of error).
Qed.

(** ** Singleton *)

(** C1, as the code has it.  Take a token registered Singleton whose
    strategy is not cached yet and whose constructor, run by the first
    [resolve], completes.  That call runs the constructor on a new object
    and on the container as it was, stores in the cache what [new] yields
    and returns it; the state it leaves is the one the constructor left,
    with that cache entry.  The next [resolve] returns the identical
    object and changes nothing.  The container has started the constructor
    once, when the first call ran it and not at registration; what else is
    on record was started by the constructor's own code.  Registering the
    token runs no constructor and caches nothing. *)
Theorem singleton_identity s token c s' returned :
  implementations (ioc s) !! token =
    Some {| injectionType := Singleton; implementation := c |} →
  instances (ioc s) !! c = None →
  (construct_at P depth) c (next_ref s) (constructing c s) = (s', Return returned) →
  resolve (construct_at P depth) token s =
    (cached c (instance_of (next_ref s) returned) s',
     Return (instance_of (next_ref s) returned)) ∧
  resolve (construct_at P depth) token (cached c (instance_of (next_ref s) returned) s') =
    (cached c (instance_of (next_ref s) returned) s',
     Return (instance_of (next_ref s) returned)) ∧
  (∃ inner,
     trace (cached c (instance_of (next_ref s) returned) s') =
       trace s ++ Constructed c :: inner ∧
     invocations c (cached c (instance_of (next_ref s) returned) s') =
       S (invocations c s) + length (filter (λ e, e = Constructed c) inner)) ∧
  (returned = None →
     instance_of (next_ref s) returned = VObject (next_ref s) ∧
     ¬ allocated s (next_ref s) ∧ allocated s' (next_ref s)) ∧
  (∀ s0, trace (register token Singleton c s0).1 = trace s0 ∧
         instances (ioc (register token Singleton c s0).1) = instances (ioc s0)).
Proof.
  intros Hd Hc Hw.
  destruct (construct_extends s c s' _ Hw) as ((Hi & _ & _ & _) & Hn).
  destruct (construct_trace s c s' _ Hw) as [inner Ht].
  split; [by apply resolve_materialises |].
  split.
  { apply (resolve_cached _ _ _ c); simpl; [by apply Hi | apply lookup_insert_eq]. }
  split.
  { exists inner. simpl in *. rewrite Ht, <- app_assoc. split; [done |].
    unfold invocations. simpl. rewrite Ht, <- app_assoc.
    rewrite !list.filter_app, !length_app. simpl.
    rewrite list.filter_cons_True by done. simpl. lia. }
  split.
  { intros ->. split; [done |]. unfold allocated. simpl in Hn. split; lia. }
  intros s0. by destruct (register_runs_nothing s0 token Singleton c) as (? & ? & _).
Qed.

(** C8, as the code has it.  The instance cache is keyed by the
    construction strategy.  Take two distinct tokens registered Singleton
    with the same strategy, not cached yet, whose constructor completes
    when the first [resolve] runs it.  Resolving one token stores what
    [new] yields under the strategy, and then both tokens resolve to that
    identical object without anything being run: the container has
    started the constructor once for the two of them. *)
Theorem singleton_cache_keyed_by_strategy s token1 token2 c s' returned :
  token1 ≠ token2 →
  implementations (ioc s) !! token1 =
    Some {| injectionType := Singleton; implementation := c |} →
  implementations (ioc s) !! token2 =
    Some {| injectionType := Singleton; implementation := c |} →
  instances (ioc s) !! c = None →
  (construct_at P depth) c (next_ref s) (constructing c s) = (s', Return returned) →
  resolve (construct_at P depth) token1 s =
    (cached c (instance_of (next_ref s) returned) s',
     Return (instance_of (next_ref s) returned)) ∧
  resolve (construct_at P depth) token2 (cached c (instance_of (next_ref s) returned) s') =
    (cached c (instance_of (next_ref s) returned) s',
     Return (instance_of (next_ref s) returned)) ∧
  resolve (construct_at P depth) token1 (cached c (instance_of (next_ref s) returned) s') =
    (cached c (instance_of (next_ref s) returned) s',
     Return (instance_of (next_ref s) returned)) ∧
  instances (ioc (cached c (instance_of (next_ref s) returned) s')) =
    <[c := instance_of (next_ref s) returned]> (instances (ioc s')) ∧
  (∃ inner,
     trace (cached c (instance_of (next_ref s) returned) s') =
       trace s ++ Constructed c :: inner ∧
     invocations c (cached c (instance_of (next_ref s) returned) s') =
       S (invocations c s) + length (filter (λ e, e = Constructed c) inner)).
Proof.
  intros _ H1 H2 Hc Hw.
  destruct (construct_extends s c s' _ Hw) as ((Hi & _ & _ & _) & Hn).
  destruct (construct_trace s c s' _ Hw) as [inner Ht].
  split; [by apply resolve_materialises |].
  split.
  { apply (resolve_cached _ _ _ c); simpl; [by apply Hi | apply lookup_insert_eq]. }
  split.
  { apply (resolve_cached _ _ _ c); simpl; [by apply Hi | apply lookup_insert_eq]. }
  split; [done |].
  exists inner. simpl in *. rewrite Ht, <- app_assoc. split; [done |].
  unfold invocations. simpl. rewrite Ht, <- app_assoc.
  rewrite !list.filter_app, !length_app. simpl.
  rewrite list.filter_cons_True by done. simpl. lia.
Qed.

(** ** Transient and Scoped *)


(** C10, as the code has it.  When the constructor of a Transient or
    Scoped token throws, [resolve] throws that very exception, whatever it
    is, and adds nothing of its own: the state after the call is the state
    the constructor left, so the container holds what the constructor's
    own code put there and nothing else.  The same failure under a
    Singleton registration does not come through as it is: a value with a
    message is turned into the container's own error. *)
Theorem transient_failure_propagates s token l c s' error :
  implementations (ioc s) !! token = Some {| injectionType := l; implementation := c |} →
  l = Transient ∨ l = Scoped →
  (construct_at P depth) c (next_ref s) (constructing c s) = (s', Throw error) →
  resolve (construct_at P depth) token s = (s', Throw error) ∧
  ioc (constructing c s) = ioc s ∧
  trace (constructing c s) = trace s ++ [Constructed c] ∧
  (∀ other text,
     implementations (ioc s) !! other =
       Some {| injectionType := Singleton; implementation := c |} →
     instances (ioc s) !! c = None →
     message_of error = Return text →
     resolve (construct_at P depth) other s =
       (s', Throw (DIError
              {| name := "DependencyInjectionError";
                 message := "Failed to create an instance of " +:+ other +:+ ". " +:+
                            text |}))).
Proof.
  intros Hd Hl Hw.
  assert (Hns : l ≠ Singleton) by (destruct Hl; by subst).
  split.
  { rewrite (resolve_not_singleton (construct_at P depth) s token _ Hd Hns). simpl.
    by apply new_instance_throws. }
  split; [done |]. split; [done |].
  intros other text Hother Hc Hm.
  by rewrite (resolve_singleton_throws _ _ _ _ _ _ Hother Hc Hw), Hm.
Qed.

(** ** Over any series of calls *)

(** X1.  A registration made once is there for good: no series of calls, of
    whatever methods and whatever outcome, and no user code run by them,
    removes it or changes its lifecycle or its class. *)
Theorem registration_permanent (calls : list api_call) s token d :
  implementations (ioc s) !! token = Some d →
  implementations (ioc (run (construct_at P depth) (invoke_at P depth) calls s)) !! token = Some d.
Proof.
  intros Hd. destruct (run_extends P depth calls s) as (Hi & _). by apply Hi.
Qed.

(** X2.  Let a [resolve] of a Singleton token return an object, and let
    the program go on, from the state that call left, with any series of
    calls of the container (so the call was not one made from inside the
    class's own constructor, which would go on with the rest of that
    constructor).  Then a [resolve] of the token after that series,
    whatever user code the series ran, returns that same object, runs no
    constructor and changes nothing. *)
Theorem singleton_stays_resolved (calls : list api_call) s token c s1 v :
  implementations (ioc s) !! token =
    Some {| injectionType := Singleton; implementation := c |} →
  resolve (construct_at P depth) token s = (s1, Return v) →
  resolve (construct_at P depth) token (run (construct_at P depth) (invoke_at P depth) calls s1) =
    (run (construct_at P depth) (invoke_at P depth) calls s1, Return v).
Proof.
  intros Hd Hr.
  pose proof (resolve_singleton_returned s token c s1 v Hd Hr) as Hc1.
  assert (Hd1 : implementations (ioc s1) !! token =
                Some {| injectionType := Singleton; implementation := c |}).
  { destruct (user_at_keeps P depth) as [Hkc _].
    destruct (resolve_keeps (construct_at P depth) token Hkc s) as (Hi & _).
    rewrite Hr in Hi. by apply Hi. }
  destruct (run_extends P depth calls s1) as (Hi & Hk & _).
  apply (resolve_cached _ _ _ c); [by apply Hi | by apply Hk].
Qed.

(** X5.  A Singleton whose constructor throws is not cached by [resolve]:
    the failed call leaves the state the constructor left.  Unless the
    constructor's own code has cached the class meanwhile, the next
    [resolve] runs the constructor again; if it completes that time, what
    [new] yields is cached and returned. *)
Theorem singleton_failure_retried s token c s1 error s2 returned :
  implementations (ioc s) !! token =
    Some {| injectionType := Singleton; implementation := c |} →
  instances (ioc s) !! c = None →
  (construct_at P depth) c (next_ref s) (constructing c s) = (s1, Throw error) →
  instances (ioc s1) !! c = None →
  (construct_at P depth) c (next_ref s1) (constructing c s1) = (s2, Return returned) →
  ∃ e,
    resolve (construct_at P depth) token s = (s1, Throw e) ∧
    resolve (construct_at P depth) token s1 =
      (cached c (instance_of (next_ref s1) returned) s2,
       Return (instance_of (next_ref s1) returned)) ∧
    instances (ioc (cached c (instance_of (next_ref s1) returned) s2)) !! c =
      Some (instance_of (next_ref s1) returned) ∧
    ∃ inner1 inner2,
      trace (cached c (instance_of (next_ref s1) returned) s2) =
        trace s ++ Constructed c :: inner1 ++ Constructed c :: inner2.
Proof.
  intros Hd Hc Hw1 Hc1 Hw2.
  destruct (construct_extends s c s1 _ Hw1) as ((Hi & _) & _).
  destruct (construct_trace s c s1 _ Hw1) as [inner1 Ht1].
  destruct (construct_trace s1 c s2 _ Hw2) as [inner2 Ht2].
  pose proof (resolve_singleton_throws (construct_at P depth) s token c s1 error Hd Hc Hw1) as E1.
  pose proof (resolve_materialises (construct_at P depth) s1 token c s2 returned (Hi _ _ Hd) Hc1 Hw2)
    as E2.
  assert (He : ∃ e, resolve (construct_at P depth) token s = (s1, Throw e)).
  { rewrite E1. destruct (message_of error); by eexists. }
  destruct He as [e He]. exists e. split; [done |]. split; [done |].
  split; [apply lookup_insert_eq |].
  exists inner1, inner2. simpl in *. rewrite Ht2, Ht1.
  by rewrite <- !app_assoc.
Qed.

(** X6.  When the constructor of a Singleton throws [null] or [undefined],
    [resolve] does not throw a [DependencyInjectionError]: the handler's
    read of [error.message] throws a [TypeError], and that is what the
    caller gets, in the state the constructor left. *)
Theorem singleton_failure_nullish s token c s' n :
  implementations (ioc s) !! token =
    Some {| injectionType := Singleton; implementation := c |} →
  instances (ioc s) !! c = None →
  (construct_at P depth) c (next_ref s) (constructing c s) = (s', Throw (Thrown (ThrownNullish n))) →
  resolve (construct_at P depth) token s =
    (s', Throw (TypeError ("Cannot read properties of " +:+ nullish_text n +:+
                           " (reading 'message')"))).
Proof.
  intros Hd Hc Hw.
  by rewrite (resolve_singleton_throws (construct_at P depth) s token c s' _ Hd Hc Hw).
Qed.

End Programs.

(** * More on the scope table *)

Section ScopeTable.

Context {world : Type}.
Variable invoke : callback → string → M world value.

Implicit Types (s : state world) (owner : value).

(** What [cleanScope] leaves: the same state with the listed owners taken
    out of the scope table one after the other. *)
Lemma cleanScope_eq (owners : list value) s :
  cleanScope owners s =
    ({| ioc := {| implementations := implementations (ioc s);
                  instances := instances (ioc s);
                  scopes := foldl (λ m k, delete k m) (scopes (ioc s)) owners;
                  dependencyReferences := dependencyReferences (ioc s) |};
        env := env s; next_ref := next_ref s; trace := trace s |},
     Return tt).
Proof.
  revert s. induction owners as [|a owners IH]; intros s.
  - by destruct s as [[] ? ? ?].
  - cbn [cleanScope]. unfold mbind, M_bind, modify. by rewrite IH.
Qed.

Lemma foldl_delete_lookup (owners : list value) (m : gmap value callback) k :
  foldl (λ m k, delete k m) m owners !! k =
    if decide (k ∈ owners) then None else m !! k.
Proof.
  revert m. induction owners as [|a owners IH]; intros m; cbn [foldl].
  - rewrite decide_False; [done |]. intros H. inversion H.
  - rewrite IH. destruct (decide (k ∈ owners)) as [Hin|Hout].
    + rewrite decide_True; [done | by right].
    + destruct (decide (k = a)) as [->|Hne].
      * rewrite lookup_delete_eq. rewrite decide_True; [done | by left].
      * rewrite lookup_delete_ne by done.
        rewrite decide_False; [done |]. intros H. by inversion H.
Qed.

(** X7.  [registerScope] replaces: of two resolvers registered for one owner
    only the second is left, exactly as if the first had never been
    registered, and it is the one [resolveScope] calls. *)
Theorem registerScope_last_wins s owner (r1 r2 : callback) dependency :
  (registerScope owner r1;; registerScope owner r2) s = registerScope owner r2 s ∧
  resolveScope invoke owner dependency (registerScope owner r2 s).1 =
    call invoke r2 dependency (registerScope owner r2 s).1.
Proof.
  split.
  - unfold registerScope, mbind, M_bind, modify, set_scope. simpl.
    by rewrite insert_insert_eq.
  - apply resolveScope_registered. simpl. apply lookup_insert_eq.
Qed.

(** X8.  [cleanScope] never throws and is idempotent: cleaning the same owners
    a second time changes nothing, and cleaning owners that have no
    resolver leaves the state exactly as it was. *)
Theorem cleanScope_idempotent (owners : list value) s :
  (cleanScope owners s).2 = Return tt ∧
  cleanScope owners (cleanScope owners s).1 = cleanScope owners s ∧
  ((∀ k, k ∈ owners → scopes (ioc s) !! k = None) →
   cleanScope owners s = (s, Return tt)).
Proof.
  rewrite !cleanScope_eq. simpl. split; [done |]. split.
  - do 3 f_equal. apply map_eq. intros k. rewrite !foldl_delete_lookup.
    by destruct (decide (k ∈ owners)).
  - intros Hnone. destruct s as [[i c sc d] w n t]. simpl in *.
    do 3 f_equal. apply map_eq. intros k. rewrite foldl_delete_lookup.
    destruct (decide (k ∈ owners)); [by rewrite Hnone | done].
Qed.

End ScopeTable.

(** * More on the reference table and its validation *)

Section References.

Context {world : Type}.

Implicit Types (s : state world) (token : string) (o : origin).

Lemma map_get_set_eq {V : Type} (k : string) (v : V) l :
  map_get k (map_set k v l) = Some v.
Proof.
  induction l as [|[k' v'] l IH]; simpl.
  - by rewrite decide_True.
  - destruct (decide (k = k')) as [->|Hne]; simpl.
    + by rewrite decide_True.
    + by rewrite decide_False.
Qed.

Lemma map_get_set_ne {V : Type} (k k' : string) (v : V) l :
  k' ≠ k → map_get k' (map_set k v l) = map_get k' l.
Proof.
  intros Hne. induction l as [|[k0 v0] l IH]; simpl.
  - by rewrite decide_False.
  - destruct (decide (k = k0)) as [->|Hne0]; simpl.
    + by rewrite !decide_False.
    + destruct (decide (k' = k0)); [done | apply IH].
Qed.

Lemma map_get_None {V : Type} (k : string) (l : list (string * V)) :
  map_get k l = None ↔ k ∉ l.*1.
Proof.
  induction l as [|[k0 v0] l IH]; simpl.
  - split; [intros _ H; inversion H | done].
  - destruct (decide (k = k0)) as [->|Hne].
    + split; [done | intros H; exfalso; apply H; by left].
    + rewrite IH. split.
      * intros Hout Hin. inversion Hin; by subst.
      * intros Hout Hin. apply Hout. by right.
Qed.

Lemma map_set_keys {V : Type} (k : string) (v : V) l :
  (map_set k v l).*1 =
    match map_get k l with Some _ => l.*1 | None => l.*1 ++ [k] end.
Proof.
  induction l as [|[k0 v0] l IH]; [done |]. cbn [map_set map_get].
  destruct (decide (k = k0)) as [->|Hne]; [done |].
  rewrite !fmap_cons, IH. by destruct (map_get k l).
Qed.

Lemma map_set_keys_unique {V : Type} (k : string) (v : V) l :
  keys_unique l → keys_unique (map_set k v l).
Proof.
  unfold keys_unique. intros Hl. rewrite map_set_keys.
  destruct (map_get k l) eqn:Hk; [done |].
  apply list.NoDup_app. split; [done |]. split; [| apply NoDup_singleton].
  intros x Hx Hx'. apply list_elem_of_singleton in Hx' as ->.
  by apply map_get_None in Hk.
Qed.

(** X9.  Recording a reference keeps one origin per token, the last: the new
    origin is the one found under the token, every other token keeps its
    origin, a token already recorded keeps its place in the table, and a
    new token goes to the end. *)
Theorem reference_last_origin_wins s token o :
  let before := dependencyReferences (ioc s) in
  let recorded := dependencyReferences (ioc (addDependencyReference token o s).1) in
  (addDependencyReference token o s).2 = Return tt ∧
  map_get token recorded = Some o ∧
  (∀ other, other ≠ token → map_get other recorded = map_get other before) ∧
  recorded.*1 =
    match map_get token before with
    | Some _ => before.*1
    | None => before.*1 ++ [token]
    end.
Proof.
  simpl. split; [done |]. split; [apply map_get_set_eq |].
  split; [intros other Hne; by apply map_get_set_ne | apply map_set_keys].
Qed.

Lemma resolve_keeps_keys (construct : Constructor → ref → M world (option ref)) token :
  (∀ c this s, keys_unique (dependencyReferences (ioc s)) →
               keys_unique (dependencyReferences (ioc (construct c this s).1))) →
  ∀ s, keys_unique (dependencyReferences (ioc s)) →
       keys_unique (dependencyReferences (ioc (resolve construct token s).1)).
Proof.
  intros Hkeeps s Hs.
  destruct (implementations (ioc s) !! token) as [[l c]|] eqn:Hd.
  2: { by rewrite resolve_unregistered. }
  pose proof (Hkeeps c (next_ref s) (constructing c s) Hs) as Hrun.
  destruct (decide (l = Singleton)) as [->|Hl].
  - destruct (instances (ioc s) !! c) as [v|] eqn:Hc.
    { by rewrite (resolve_cached _ _ _ _ v Hd Hc). }
    destruct (construct c (next_ref s) (constructing c s)) as [s' [returned|error]] eqn:Hw.
    + by rewrite (resolve_materialises _ _ _ _ _ _ Hd Hc Hw).
    + by rewrite (resolve_singleton_throws _ _ _ _ _ _ Hd Hc Hw).
  - rewrite (resolve_not_singleton _ _ _ _ Hd Hl). simpl. unfold new_instance.
    by destruct (construct c (next_ref s) (constructing c s)) as [s' [returned|error]].
Qed.

Lemma perform_keeps_keys (construct : Constructor → ref → M world (option ref))
    (invoke : callback → string → M world value) :
  (∀ c this s, keys_unique (dependencyReferences (ioc s)) →
               keys_unique (dependencyReferences (ioc (construct c this s).1))) →
  (∀ r dependency s, keys_unique (dependencyReferences (ioc s)) →
               keys_unique (dependencyReferences (ioc (invoke r dependency s).1))) →
  ∀ call s, keys_unique (dependencyReferences (ioc s)) →
            keys_unique (dependencyReferences (ioc (perform construct invoke call s).1)).
Proof.
  intros Hc Hi call s Hs.
  destruct call as [token l c | token | token | owner cb | owner dependency
                   | owners | token o | ]; unfold perform; rewrite bind_ret_state.
  - destruct (implementations (ioc s) !! token) as [d|] eqn:Hd.
    + by rewrite (register_taken _ _ _ _ d).
    + by rewrite register_free.
  - by apply resolve_keeps_keys.
  - done.
  - done.
  - unfold resolveScope, mbind, M_bind, gets.
    destruct (scopes (ioc s) !! owner) as [resolver|]; [| done].
    unfold call. by apply Hi.
  - by destruct (cleanScope_runs owners s) as (_ & _ & _ & _ & _ & -> & _).
  - by apply map_set_keys_unique.
  - unfold testDependencyReferences, mbind, M_bind, gets. by rewrite testLoop_state.
Qed.

Lemma exec_keeps_keys {R : Type} (api : api_call → M world api_result)
    (p : code world R) :
  (∀ call s, keys_unique (dependencyReferences (ioc s)) →
             keys_unique (dependencyReferences (ioc (api call s).1))) →
  ∀ s, keys_unique (dependencyReferences (ioc s)) →
       keys_unique (dependencyReferences (ioc (exec api p s).1)).
Proof.
  intros Hapi. induction p as [r | e | k IH | w k IH | k IH | call k IH];
    intros s Hs; simpl; try done.
  - by apply IH.
  - by apply IH.
  - by apply IH.
  - pose proof (Hapi call s Hs) as Hcall.
    destruct (api call s) as [s' r]. by apply IH.
Qed.

Lemma user_at_keeps_keys (P : program world) (depth : nat) :
  (∀ c this s, keys_unique (dependencyReferences (ioc s)) →
     keys_unique (dependencyReferences (ioc (construct_at P depth c this s).1))) ∧
  (∀ r dependency s, keys_unique (dependencyReferences (ioc s)) →
     keys_unique (dependencyReferences (ioc (invoke_at P depth r dependency s).1))).
Proof.
  unfold construct_at, invoke_at.
  induction depth as [|n [IHc IHi]]; simpl; [done |].
  split; intros; apply exec_keeps_keys; try done; by apply perform_keeps_keys.
Qed.

Lemma spec_finding_token registry token n f :
  spec_finding registry token n = Some f → finding_token f = token.
Proof.
  unfold spec_finding.
  destruct (injectionType <$> registry !! token) as [[]|]; try done.
  - destruct (injectionType <$> registry !! n) as [[]|]; try done.
    all: by intros [= <-].
  - by intros [= <-].
Qed.

Lemma spec_findings_tokens registry (entries : list (string * origin)) :
  finding_token <$> spec_findings registry (named_references entries)
    `sublist_of` entries.*1.
Proof.
  induction entries as [|[token o] rest IH]; [constructor |].
  rewrite spec_findings_cons, fmap_cons. simpl.
  destruct (spec_finding registry token (origin_name o)) as [f|] eqn:Hf.
  - rewrite fmap_cons, (spec_finding_token _ _ _ _ Hf). by apply sublist_skip.
  - by apply sublist_cons.
Qed.

(** X10.  In whatever state a program gets into from its start, no token is
    recorded twice in the reference table, and a validation that returns
    reports at most one error per recorded token: its errors are the
    texts of findings about pairwise different tokens, each a recorded
    one, in the order of the table. *)
Theorem one_error_per_token (P : program world) (depth : nat)
    (calls : list api_call) (w : world) :
  let s := run (construct_at P depth) (invoke_at P depth) calls (initial w) in
  keys_unique (dependencyReferences (ioc s)) ∧
  ∀ r, (testDependencyReferences s).2 = Return r →
    ∃ found,
      errors r = render <$> found ∧
      NoDup (finding_token <$> found) ∧
      finding_token <$> found `sublist_of` (dependencyReferences (ioc s)).*1.
Proof.
  simpl.
  assert (Hkeys : keys_unique (dependencyReferences
            (ioc (run (construct_at P depth) (invoke_at P depth) calls (initial w))))).
  { assert (H0 : keys_unique (dependencyReferences (ioc (initial w))))
      by apply NoDup_nil_2.
    revert H0. generalize (initial w).
    induction calls as [|call calls IH]; intros s Hs; [done |].
    simpl. apply IH. destruct (user_at_keeps_keys P depth) as [Hc Hi].
    by apply perform_keeps_keys. }
  split; [done |]. revert Hkeys.
  generalize (run (construct_at P depth) (invoke_at P depth) calls (initial w)).
  intros s Hkeys r Hr.
  destruct (names_readable (ioc s)) eqn:Hn.
  - unfold testDependencyReferences, mbind, M_bind, gets in Hr. simpl in Hr.
    rewrite testLoop_refines in Hr by done. simpl in Hr. injection Hr as <-.
    eexists. split; [done |].
    pose proof (spec_findings_tokens (implementations (ioc s))
                  (dependencyReferences (ioc s))) as Hsub.
    split; [| done]. eapply sublist_NoDup; [exact Hkeys | exact Hsub].
  - unfold testDependencyReferences, mbind, M_bind, gets in Hr. simpl in Hr.
    destruct (testLoop_raises (dependencyReferences (ioc s)) true [] s Hn) as [x Hx].
    by rewrite Hx in Hr.
Qed.

(** X11.  Validation passes, and reads no origin at all, when every recorded
    token is registered with a lifecycle other than Scoped: whatever the
    origins are, [null] included, the result is valid with no errors. *)
Theorem validation_of_plain_tokens s :
  forallb (λ '(token, _), negb (inspects (implementations (ioc s)) token))
    (dependencyReferences (ioc s)) = true →
  testDependencyReferences s = (s, Return {| valid := true; errors := [] |}).
Proof.
  intros Hplain.
  unfold testDependencyReferences, mbind, M_bind, gets. simpl.
  assert (Hall : ∀ entries,
    forallb (λ '(token, _), negb (inspects (implementations (ioc s)) token)) entries = true →
    forallb (λ '(token, o), implb (inspects (implementations (ioc s)) token) (has_name o))
      entries = true ∧
    spec_findings (implementations (ioc s)) (named_references entries) = []).
  { induction entries as [|[token o] rest IH]; [done |]. cbn [forallb].
    intros [Hhead Hrest]%andb_true_iff. destruct (IH Hrest) as [IH1 IH2].
    apply negb_true_iff in Hhead. rewrite Hhead, IH1. split; [done |].
    rewrite spec_findings_cons, IH2.
    unfold inspects in Hhead. unfold spec_finding.
    destruct (injectionType <$> implementations (ioc s) !! token) as [[]|]; done. }
  destruct (Hall _ Hplain) as [H1 H2].
  rewrite testLoop_refines by done. by rewrite H2.
Qed.

End References.

(** * The class decorators *)

Section Decorating.

Context {world : Type}.

Implicit Types (s : state world) (l : DependencyInjectionType) (f : function_object).

Local Ltac open_decorator l :=
  destruct l; unfold decorator, Decorators.Singleton, Decorators.Scoped,
    Decorators.Transient, mbind, M_bind, lift, throw.

Lemma decorator_of_class l f s :
  isClass (CandidateFunction f) = true →
  decorator l (CandidateFunction f) s = register (fn_name f) l (fn_ref f) s.
Proof. intros Hc. open_decorator l; by rewrite Hc. Qed.

(** X13.  A decorator applied to a class whose name is free registers it under
    that name with the decorator's lifecycle: afterwards the name has that
    lifecycle and stands for that class. *)
Theorem decorator_registers_class l f s :
  isClass (CandidateFunction f) = true →
  implementations (ioc s) !! fn_name f = None →
  ∃ s1,
    decorator l (CandidateFunction f) s = (s1, Return tt) ∧
    implementations (ioc s1) !! fn_name f =
      Some {| injectionType := l; implementation := fn_ref f |} ∧
    getInjectionType (fn_name f) s1 = (s1, Return (Some l)) ∧
    instances (ioc s1) = instances (ioc s) ∧ trace s1 = trace s.
Proof.
  intros Hc Hfree. rewrite decorator_of_class by done.
  rewrite register_free by done. eexists. split; [done |]. simpl.
  split; [apply lookup_insert_eq |]. split; [| done].
  unfold getInjectionType, gets. simpl. by rewrite lookup_insert_eq.
Qed.

(** X14.  A decorator applied to anything [isClass] refuses registers nothing and
    throws: a [DependencyInjectionError] that names the candidate, or, for
    [null] and [undefined], the [TypeError] of reading their [name]. *)
Theorem decorator_rejects_non_class l (implementation : candidate) s :
  isClass implementation = false →
  decorator l implementation s =
    (s, match name_of implementation with
        | Return n =>
            Throw (DIError
              {| name := "DependencyInjectionError";
                 message := "Failed to register class definition for " +:+ n +:+
                            ". The implementation is not a class." |})
        | Throw e => Throw e
        end).
Proof.
  intros Hc. open_decorator l; rewrite Hc; simpl.
  all: by destruct (name_of implementation).
Qed.

(** X15.  [isClass] wants a member besides the constructor: a class whose
    prototype has at most one own property, as [class A {}] has, is
    refused by every decorator although it is a class. *)
Theorem memberless_class_rejected l f p s :
  fn_prototype f = Some p →
  proto_constructor p = Some (fn_ref f) →
  length (own_property_names p) ≤ 1 →
  isClass (CandidateFunction f) = false ∧
  decorator l (CandidateFunction f) s =
    (s, Throw (DIError
          {| name := "DependencyInjectionError";
             message := "Failed to register class definition for " +:+ fn_name f +:+
                        ". The implementation is not a class." |})).
Proof.
  intros Hp Hself Hlen.
  assert (Hc : isClass (CandidateFunction f) = false).
  { unfold isClass. rewrite Hp, Hself.
    rewrite bool_decide_eq_false_2 by (by intros []).
    apply bool_decide_eq_false_2. lia. }
  split; [done |]. open_decorator l; by rewrite Hc.
Qed.

(** X16.  Two classes with the same name cannot both be decorated: the second
    decoration throws the duplicate error, whatever its lifecycle, and the
    name keeps standing for the first class with the first lifecycle. *)
Theorem same_name_decorated_twice l1 l2 f1 f2 s :
  isClass (CandidateFunction f1) = true →
  isClass (CandidateFunction f2) = true →
  fn_name f1 = fn_name f2 →
  implementations (ioc s) !! fn_name f1 = None →
  ∃ s1,
    decorator l1 (CandidateFunction f1) s = (s1, Return tt) ∧
    decorator l2 (CandidateFunction f2) s1 =
      (s1, Throw (DIError
             {| name := "DependencyInjectionError";
                message := "There already is a class named " +:+ fn_name f2 +:+
                           " registered." |})) ∧
    implementations (ioc s1) !! fn_name f2 =
      Some {| injectionType := l1; implementation := fn_ref f1 |}.
Proof.
  intros Hc1 Hc2 Hname Hfree. rewrite (decorator_of_class l1 f1) by done.
  rewrite register_free by done. eexists. split; [done |].
  rewrite (decorator_of_class l2 f2) by done. rewrite <- Hname.
  split; [| apply lookup_insert_eq].
  apply (register_taken _ _ _ _ {| injectionType := l1; implementation := fn_ref f1 |}).
  apply lookup_insert_eq.
Qed.

End Decorating.

(** * The injected property *)

Section Injected.

Context {world : Type}.
Variable construct : Constructor → ref → M world (option ref).
Variable invoke : callback → string → M world value.

Implicit Types (s : state world) (this : value).

(** X17.  Reading an injected property goes to the container's [resolve]
    when the object has no scope, and also when its scope's resolver
    answers [null] or [undefined]; in the second case the resolver has run
    first and [resolve] starts from the state it left. *)
Theorem getter_falls_back_to_resolve s this dependency :
  (scopes (ioc s) !! this = None →
   Inject_getter construct invoke this dependency s = resolve construct dependency s) ∧
  (∀ resolver s' v,
     scopes (ioc s) !! this = Some resolver →
     invoke resolver dependency (calling resolver dependency s) = (s', Return v) →
     v = VNull ∨ v = VUndefined →
     Inject_getter construct invoke this dependency s =
       resolve construct dependency s').
Proof.
  split.
  - intros Hnone. unfold Inject_getter, mbind, M_bind.
    by rewrite resolveScope_unregistered.
  - intros resolver s' v Hsome Hi Hv. unfold Inject_getter, mbind, M_bind.
    rewrite (resolveScope_registered _ _ _ _ _ Hsome). unfold call. rewrite Hi.
    by destruct Hv as [-> | ->].
Qed.

(** X18.  Reading an injected property of an object whose scope's resolver
    answers with a value, or throws, is that resolver's run and nothing
    more: the outcome and the state are the ones the resolver left, and
    the getter itself makes no call of the container's [resolve].  Whether
    the dependency is registered plays no part. *)
Theorem getter_prefers_scope s this dependency resolver s' :
  scopes (ioc s) !! this = Some resolver →
  (∀ v, invoke resolver dependency (calling resolver dependency s) = (s', Return v) →
        v ≠ VNull → v ≠ VUndefined →
        Inject_getter construct invoke this dependency s = (s', Return v)) ∧
  (∀ error,
        invoke resolver dependency (calling resolver dependency s) = (s', Throw error) →
        Inject_getter construct invoke this dependency s = (s', Throw error)).
Proof.
  intros Hsome. split.
  - intros v Hi Hn Hu. unfold Inject_getter, mbind, M_bind.
    rewrite (resolveScope_registered _ _ _ _ _ Hsome). unfold call. rewrite Hi.
    by destruct v.
  - intros error Hi. unfold Inject_getter, mbind, M_bind.
    rewrite (resolveScope_registered _ _ _ _ _ Hsome). unfold call. by rewrite Hi.
Qed.

End Injected.

(** * The example's scope manager *)

Section ScopeManager.

Context {world : Type}.
Variable P : program world.
Variable depth : nat.

Implicit Types (s : state world) (self : callback) (key : string)
  (scoped : list (string * value)).

Lemma manager_stores s self key c scoped s' returned :
  implementations (ioc s) !! key =
    Some {| injectionType := Scoped; implementation := c |} →
  map_get key scoped = None →
  construct_at P depth c (next_ref s) (constructing c s) = (s', Return returned) →
  handleRequest_resolve (construct_at P depth) self key scoped s =
    ({| ioc := set_scope (VString key) self (ioc s'); env := env s';
        next_ref := next_ref s'; trace := trace s' |},
     Return (instance_of (next_ref s) returned,
             map_set key (instance_of (next_ref s) returned) scoped)).
Proof.
  intros Hd Hfree Hw.
  destruct (construct_extends P depth s c s' _ Hw) as ((Hi & _) & _).
  assert (Hns : Scoped ≠ Singleton) by done.
  pose proof (resolve_not_singleton (construct_at P depth) s key _ Hd Hns) as E.
  simpl in E. rewrite (new_instance_returns _ _ _ _ _ Hw) in E.
  unfold handleRequest_resolve. rewrite Hfree.
  unfold mbind, M_bind. rewrite E.
  unfold getInjectionType, gets, registerScope, modify. simpl.
  by rewrite (Hi _ _ Hd).
Qed.



(** X21.  The example cleans up with [scopedDependencies.values()], the
    stored objects, while its resolvers are registered under key strings:
    the cleanup removes no resolver registered under a string.  So after a
    request has looked up a Scoped key and cleaned up, the resolver
    registered for that key is still in the scope table. *)
Theorem example_cleanup_keeps_scopes s self key c scoped s' returned :
  implementations (ioc s) !! key =
    Some {| injectionType := Scoped; implementation := c |} →
  map_get key scoped = None →
  construct_at P depth c (next_ref s) (constructing c s) = (s', Return returned) →
  forallb (λ v, match v with VObject _ => true | _ => false end) scoped.*2 = true →
  ∃ s1 v scoped1 s2,
    handleRequest_resolve (construct_at P depth) self key scoped s =
      (s1, Return (v, scoped1)) ∧
    handleRequest_cleanup scoped1 s1 = (s2, Return tt) ∧
    (∀ name, scopes (ioc s2) !! VString name = scopes (ioc s1) !! VString name) ∧
    scopes (ioc s2) !! VString key = Some self.
Proof.
  intros Hd Hfree Hw Hobj.
  eexists _, _, _, _.
  split; [by apply (manager_stores s self key c scoped s' returned) |].
  unfold handleRequest_cleanup. rewrite cleanScope_eq. simpl. split; [done |].
  assert (Hkept : ∀ (values : list value) (m : gmap value callback),
    forallb (λ v, match v with VObject _ => true | _ => false end) values = true →
    ∀ k, (∀ r, k ≠ VObject r) → foldl (λ m k, delete k m) m values !! k = m !! k).
  { intros values m Hall k Hk. rewrite foldl_delete_lookup.
    rewrite decide_False; [done |]. intros Hin.
    rewrite forallb_forall in Hall. apply list_elem_of_In, Hall in Hin.
    destruct k; try done. by apply (Hk r). }
  assert (Hvalues : forallb (λ v, match v with VObject _ => true | _ => false end)
                      (map_set key (instance_of (next_ref s) returned) scoped).*2 = true).
  { clear -Hobj Hfree. induction scoped as [|[k0 v0] rest IH]; [done |].
    cbn [map_set map_get] in *. destruct (decide (key = k0)); [done |].
    rewrite fmap_cons in *. cbn [forallb] in *.
    apply andb_true_iff in Hobj as [H0 Hrest]. rewrite H0. by apply IH. }
  split.
  - intros name. by apply Hkept.
  - simpl. rewrite Hkept; [apply lookup_insert_eq | done | done].
Qed.

End ScopeManager.

(** * The properties on the small program *)

Module Runs.
Import Demo.

Local Ltac compute_it := vm_compute; reflexivity.

(** One singleton: registered, then resolved twice. *)
Lemma singleton_identity_run :
  let s := after (register "Db" Singleton 1) start in
  let s' := after (construct 1 (next_ref s)) (constructing 1 s) in
  implementations (ioc s) !! "Db" =
    Some {| injectionType := Singleton; implementation := 1%positive |} ∧
  instances (ioc s) !! 1%positive = None ∧
  construct 1 (next_ref s) (constructing 1 s) = (s', Return None) ∧
  resolve construct "Db" s = (cached 1 (VObject 1) s', Return (VObject 1)) ∧
  resolve construct "Db" (cached 1 (VObject 1) s') =
    (cached 1 (VObject 1) s', Return (VObject 1)).
Proof.
  intros s s'. do 3 (split; [compute_it |]).
  destruct (singleton_identity app depth s "Db" 1%positive s' None)
    as (H1 & H2 & _); [compute_it.. |].
  split; [exact H1 | exact H2].
Defined.

(** C1 as stated fails.  Class 22 resolves its own token from inside its
    constructor the first time it runs: registered as the singleton
    "Self", two resolutions in a row return the identical object, but the
    constructor has run twice.  Class 2 always throws: registered as the
    singleton "Db", two resolutions in a row return no instance at all and
    run the constructor once each. *)
Lemma singleton_constructed_twice :
  let s := after (register "Self" Singleton 22) start in
  let s1 := after (resolve construct "Self") s in
  let s2 := after (resolve construct "Self") s1 in
  let t := after (register "Db" Singleton 2) start in
  let t1 := after (resolve construct "Db") t in
  let t2 := after (resolve construct "Db") t1 in
  (outcome (resolve construct "Self") s = Return (VObject 1) ∧
   outcome (resolve construct "Self") s1 = Return (VObject 1) ∧
   trace s2 = [Constructed 22; Constructed 22] ∧
   invocations 22 s2 = 2) ∧
  ((∀ v, outcome (resolve construct "Db") t ≠ Return v) ∧
   (∀ v, outcome (resolve construct "Db") t1 ≠ Return v) ∧
   trace t2 = [Constructed 2; Constructed 2] ∧
   invocations 2 t2 = 2).
Proof.
  intros s s1 s2 t t1 t2. split.
  - do 3 (split; [compute_it |]). compute_it.
  - split; [intros v Hv; vm_compute in Hv; discriminate Hv |].
    split; [intros v Hv; vm_compute in Hv; discriminate Hv |].
    split; compute_it.
Qed.

(** Two tokens, one class. *)
Lemma singleton_cache_keyed_by_strategy_run :
  let s := after (register "B" Singleton 1) (after (register "A" Singleton 1) start) in
  let s' := after (construct 1 (next_ref s)) (constructing 1 s) in
  "A" ≠ "B" ∧
  implementations (ioc s) !! "A" =
    Some {| injectionType := Singleton; implementation := 1%positive |} ∧
  implementations (ioc s) !! "B" =
    Some {| injectionType := Singleton; implementation := 1%positive |} ∧
  instances (ioc s) !! 1%positive = None ∧
  construct 1 (next_ref s) (constructing 1 s) = (s', Return None) ∧
  resolve construct "A" s = (cached 1 (VObject 1) s', Return (VObject 1)) ∧
  resolve construct "B" (cached 1 (VObject 1) s') =
    (cached 1 (VObject 1) s', Return (VObject 1)).
Proof.
  intros s s'. split; [done |]. do 4 (split; [compute_it |]).
  destruct (singleton_cache_keyed_by_strategy app depth s "A" "B" 1%positive s' None)
    as (H1 & H2 & _); [done | compute_it.. |].
  split; [exact H1 | exact H2].
Defined.

(** C8 as stated fails.  Class 24 throws the first time it runs.  With the
    tokens "A" and "B" both registered Singleton on it, resolving "A"
    returns no instance, resolving "B" then returns one, and the
    constructor has run twice for the two tokens. *)
Lemma shared_strategy_constructed_twice :
  let s := after (register "B" Singleton 24) (after (register "A" Singleton 24) start) in
  let s1 := after (resolve construct "A") s in
  let s2 := after (resolve construct "B") s1 in
  "A" ≠ "B" ∧
  implementations (ioc s) !! "A" =
    Some {| injectionType := Singleton; implementation := 24%positive |} ∧
  implementations (ioc s) !! "B" =
    Some {| injectionType := Singleton; implementation := 24%positive |} ∧
  outcome (resolve construct "A") s =
    Throw (DIError {| name := "DependencyInjectionError";
                      message := "Failed to create an instance of A. not yet" |}) ∧
  outcome (resolve construct "B") s1 = Return (VObject 2) ∧
  trace s2 = [Constructed 24; Constructed 24] ∧
  invocations 24 s2 = 2.
Proof.
  intros s s1 s2. split; [done |]. do 5 (split; [compute_it |]). compute_it.
Qed.



(** A constructor that throws [null] is not wrapped at all: reading
    [error.message] in the handler throws a [TypeError] of its own. *)
Example singleton_failure_null :
  outcome (resolve construct "Db") (after (register "Db" Singleton 4) start) =
    Throw (TypeError "Cannot read properties of null (reading 'message')").
Proof. compute_it. Qed.



(** A scoped class whose constructor throws. *)
Lemma transient_failure_propagates_run :
  let s := after (register "Repo" Scoped 2) start in
  let s' := after (construct 2 (next_ref s)) (constructing 2 s) in
  implementations (ioc s) !! "Repo" =
    Some {| injectionType := Scoped; implementation := 2%positive |} ∧
  (Scoped = Transient ∨ Scoped = Scoped) ∧
  construct 2 (next_ref s) (constructing 2 s) =
    (s', Throw (Thrown (ThrownObject 100 (Some "boom")))) ∧
  resolve construct "Repo" s = (s', Throw (Thrown (ThrownObject 100 (Some "boom")))).
Proof.
  intros s s'. split; [compute_it |]. split; [by right |]. split; [compute_it |].
  by destruct (transient_failure_propagates app depth s "Repo" Scoped 2%positive s'
                 (Thrown (ThrownObject 100 (Some "boom"))))
    as (H1 & _); [compute_it | by right | compute_it |].
Defined.

(** C10 as stated fails.  The constructor of class 23 resolves the
    singleton "Db" and then throws.  Registered Transient as "Job", its
    failed resolution lets the thrown value through as it is, but the
    container is not as it was: it now holds the singleton the constructor
    resolved. *)
Lemma transient_failure_leaves_singleton :
  let s := after (register "Job" Transient 23) (after (register "Db" Singleton 1) start) in
  let s1 := after (resolve construct "Job") s in
  implementations (ioc s) !! "Job" =
    Some {| injectionType := Transient; implementation := 23%positive |} ∧
  outcome (resolve construct "Job") s = Throw (Thrown (ThrownObject 100 (Some "boom"))) ∧
  instances (ioc s) !! 1%positive = None ∧
  instances (ioc s1) !! 1%positive = Some (VObject 2) ∧
  ioc s1 ≠ ioc s.
Proof.
  intros s s1. do 4 (split; [compute_it |]).
  intros Heq.
  assert (H : instances (ioc s1) !! 1%positive = instances (ioc s) !! 1%positive)
    by (by rewrite Heq).
  vm_compute in H. discriminate H.
Qed.

(** The empty container knows no "Ghost". *)
Lemma unregistered_lookup_run :
  implementations (ioc start) !! "Ghost" = None ∧
  ∃ e,
    resolve construct "Ghost" start = (start, Throw (DIError e)) ∧
    occurs_in "Ghost" (message e) ∧
    getInjectionType "Ghost" start = (start, Return None).
Proof.
  split; [compute_it |].
  destruct (unregistered_lookup construct start "Ghost")
    as (e & H1 & _ & _ & H2 & _ & H3); [compute_it |].
  by exists e.
Defined.


(** A scoped class referenced from a transient consumer. *)
Lemma testReferences_refines_spec_run :
  let s := after (addDependencyReference "ScopedThing" (OriginOf "Consumer"))
             (after (register "Consumer" Transient 6)
               (after (register "ScopedThing" Scoped 5) start)) in
  names_readable (ioc s) = true ∧
  testDependencyReferences s =
    (s, Return {| valid := false;
                  errors := ["Consumer: The scoped dependency ScopedThing cannot be resolved from a non-scoped class"] |}).
Proof.
  intros s. split; [compute_it |].
  destruct (testReferences_refines_spec s) as (r & H1 & -> & _); [compute_it |].
  rewrite H1. f_equal.
Defined.

(** C6 as stated fails.  With [undefined] recorded as the origin of a token
    that is registered Scoped, the origin has no registration, yet the
    pair is not skipped and no result is returned: reading the origin's
    name throws. *)
Lemma testReferences_throws_on_scoped_token :
  let s := after (addDependencyReference "Worker" (OriginNullish JsUndefined))
             (after (register "Worker" Scoped 1) start) in
  dependencyReferences (ioc s) = [("Worker", OriginNullish JsUndefined)] ∧
  implementations (ioc s) !! "Worker" =
    Some {| injectionType := Scoped; implementation := 1%positive |} ∧
  testDependencyReferences s =
    (s, Throw (TypeError "Cannot read properties of undefined (reading 'constructor')")) ∧
  ¬ ∃ r, outcome testDependencyReferences s = Return r.
Proof.
  intros s. do 3 (split; [compute_it |]).
  intros [r Hr]. vm_compute in Hr. discriminate Hr.
Qed.

(** C9 as stated fails.  With [null] recorded as the origin of a token that
    is not registered, the call does not return a result: it throws. *)
Lemma testReferences_throws_on_null_origin :
  let s := after (addDependencyReference "Foo" (OriginNullish JsNull)) start in
  dependencyReferences (ioc s) = [("Foo", OriginNullish JsNull)] ∧
  testDependencyReferences s =
    (s, Throw (TypeError "Cannot read properties of null (reading 'constructor')")) ∧
  ¬ ∃ r, outcome testDependencyReferences s = Return r.
Proof.
  intros s. split; [compute_it |]. split; [compute_it |].
  intros [r Hr]. vm_compute in Hr. discriminate Hr.
Qed.

(** A reference to a token nobody registered, from a class prototype. *)
Lemma testReferences_returns_run :
  let s := after (addDependencyReference "Foo" (OriginOf "Consumer")) start in
  names_readable (ioc s) = true ∧
  ∃ r, testDependencyReferences s = (s, Return r) ∧ valid r = false.
Proof.
  intros s. split; [compute_it |].
  destruct (testReferences_returns s) as (r & H1 & H2); [compute_it |].
  exists r. split; [done |]. apply H2.
  assert (Hr : Return r = outcome testDependencyReferences s)
    by (unfold outcome; by rewrite H1).
  vm_compute in Hr. injection Hr as ->. done.
Defined.

(** The second registration of a name is refused and the first one stays. *)
Example duplicate_registration_run :
  let s := after (register "Db" Singleton 1) start in
  register "Db" Transient 5 s =
    (s, Throw (DIError {| name := "DependencyInjectionError";
                          message := "There already is a class named Db registered." |})) ∧
  outcome (getInjectionType "Db") (after (register "Db" Transient 5) s) =
    Return (Some Singleton).
Proof. split; compute_it. Qed.

(** A whole program: the example application's three classes, its
    references, the validation, and two lookups of each kind. *)
Example program_run :
  let s := run construct invoke
             [Register "DbConnection" Singleton 10; Register "UserContainer" Scoped 11;
              Register "UserRepository" Transient 12;
              AddDependencyReference "UserRepository" (OriginOf "UserContainer");
              AddDependencyReference "DbConnection" (OriginOf "UserRepository");
              TestDependencyReferences;
              Resolve "DbConnection"; Resolve "UserRepository";
              Resolve "DbConnection"; Resolve "UserRepository"] start in
  outcome testDependencyReferences s = Return {| valid := true; errors := [] |} ∧
  trace s = [Constructed 10; Constructed 12; Constructed 12] ∧
  instances (ioc s) !! 10%positive = Some (VObject 1) ∧
  outcome (resolve construct "DbConnection") s = Return (VObject 1) ∧
  outcome (resolve construct "UserRepository") s = Return (VObject 4).
Proof. repeat split; compute_it. Qed.

End Runs.

(** * The further properties on the small program *)

Module MoreRuns.
Import Demo.

Local Ltac compute_it := vm_compute; reflexivity.

Lemma registration_permanent_run :
  let s := after (register "Db" Singleton 1) start in
  let calls := [Register "Db" Transient 5; Resolve "Db"; CleanScope [VString "Db"];
                AddDependencyReference "Db" (OriginNullish JsNull);
                Register "Self" Singleton 22; Resolve "Self";
                TestDependencyReferences; Resolve "Ghost"] in
  implementations (ioc s) !! "Db" =
    Some {| injectionType := Singleton; implementation := 1%positive |} ∧
  implementations (ioc (run construct invoke calls s)) !! "Db" =
    Some {| injectionType := Singleton; implementation := 1%positive |}.
Proof.
  intros s calls. split; [compute_it |].
  apply (registration_permanent app depth calls s). compute_it.
Defined.

Lemma singleton_stays_resolved_run :
  let s := after (register "Db" Singleton 1) start in
  let calls := [Register "Job" Transient 23; Resolve "Job"; Resolve "Db";
                RegisterScope (VObject 1) 3%positive; ResolveScope (VObject 1) "Db"] in
  implementations (ioc s) !! "Db" =
    Some {| injectionType := Singleton; implementation := 1%positive |} ∧
  resolve construct "Db" s = (after (resolve construct "Db") s, Return (VObject 1)) ∧
  outcome (resolve construct "Db")
    (run construct invoke calls (after (resolve construct "Db") s)) =
    Return (VObject 1).
Proof.
  intros s calls. split; [compute_it |]. split; [compute_it |].
  assert (E := singleton_stays_resolved app depth calls s "Db" 1%positive
                 (after (resolve construct "Db") s) (VObject 1)
                 ltac:(compute_it) ltac:(compute_it)).
  exact (f_equal snd E).
Defined.

Lemma singleton_failure_retried_run :
  let s := after (register "Db" Singleton 24) start in
  let s1 := after (construct 24 (next_ref s)) (constructing 24 s) in
  let s2 := after (construct 24 (next_ref s1)) (constructing 24 s1) in
  implementations (ioc s) !! "Db" =
    Some {| injectionType := Singleton; implementation := 24%positive |} ∧
  instances (ioc s) !! 24%positive = None ∧
  construct 24 (next_ref s) (constructing 24 s) =
    (s1, Throw (Thrown (ThrownObject 100 (Some "not yet")))) ∧
  instances (ioc s1) !! 24%positive = None ∧
  construct 24 (next_ref s1) (constructing 24 s1) = (s2, Return None) ∧
  ∃ e,
    resolve construct "Db" s = (s1, Throw e) ∧
    resolve construct "Db" s1 = (cached 24 (VObject 2) s2, Return (VObject 2)).
Proof.
  intros s s1 s2. do 5 (split; [compute_it |]).
  destruct (singleton_failure_retried app depth s "Db" 24%positive s1
              (Thrown (ThrownObject 100 (Some "not yet"))) s2 None)
    as (e & H1 & H2 & _); [compute_it.. |].
  exists e. split; [exact H1 | exact H2].
Defined.

Lemma singleton_failure_nullish_run :
  let s := after (register "Db" Singleton 4) start in
  let s' := after (construct 4 (next_ref s)) (constructing 4 s) in
  implementations (ioc s) !! "Db" =
    Some {| injectionType := Singleton; implementation := 4%positive |} ∧
  instances (ioc s) !! 4%positive = None ∧
  construct 4 (next_ref s) (constructing 4 s) = (s', Throw (Thrown (ThrownNullish JsNull))) ∧
  resolve construct "Db" s =
    (s', Throw (TypeError "Cannot read properties of null (reading 'message')")).
Proof.
  intros s s'. do 3 (split; [compute_it |]).
  by apply (singleton_failure_nullish app depth s "Db" 4%positive s' JsNull);
    compute_it.
Defined.

Lemma cleanScope_idempotent_run :
  (∀ k, k ∈ [VObject 5; VString "x"] → scopes (ioc start) !! k = None) ∧
  cleanScope [VObject 5; VString "x"] start = (start, Return tt).
Proof.
  assert (H : ∀ k, k ∈ [VObject 5; VString "x"] → scopes (ioc start) !! k = None).
  { intros k _. apply lookup_empty. }
  split; [exact H |].
  by apply (cleanScope_idempotent [VObject 5; VString "x"] start).
Defined.

Lemma reference_last_origin_wins_run :
  let s := after (addDependencyReference "Db" (OriginOf "First")) start in
  "Other" ≠ "Db" ∧
  map_get "Db" (dependencyReferences (ioc (addDependencyReference "Db"
                  (OriginOf "Second") s).1)) = Some (OriginOf "Second") ∧
  map_get "Other" (dependencyReferences (ioc (addDependencyReference "Db"
                  (OriginOf "Second") s).1)) =
    map_get "Other" (dependencyReferences (ioc s)).
Proof.
  intros s. split; [done |].
  destruct (reference_last_origin_wins s "Db" (OriginOf "Second")) as (_ & H1 & H2 & _).
  split; [exact H1 | by apply H2].
Defined.

Lemma one_error_per_token_run :
  let calls := [AddDependencyReference "A" (OriginOf "X");
                AddDependencyReference "A" (OriginOf "Y");
                AddDependencyReference "B" (OriginOf "X")] in
  let s := run construct invoke calls start in
  (testDependencyReferences s).2 =
    Return {| valid := false;
              errors := ["Y: The dependency A is not registered";
                         "X: The dependency B is not registered"] |} ∧
  ∃ found,
    ["Y: The dependency A is not registered";
     "X: The dependency B is not registered"] = render <$> found ∧
    NoDup (finding_token <$> found) ∧
    finding_token <$> found `sublist_of` ["A"; "B"].
Proof.
  intros calls s. split; [compute_it |].
  destruct (one_error_per_token app depth calls {| runs := 0; shared := None |})
    as [_ H].
  apply (H {| valid := false;
              errors := ["Y: The dependency A is not registered";
                         "X: The dependency B is not registered"] |}).
  compute_it.
Defined.

Lemma validation_of_plain_tokens_run :
  let s := after (addDependencyReference "Db" (OriginNullish JsNull))
             (after (register "Db" Singleton 1) start) in
  forallb (λ '(token, _), negb (inspects (implementations (ioc s)) token))
    (dependencyReferences (ioc s)) = true ∧
  testDependencyReferences s = (s, Return {| valid := true; errors := [] |}).
Proof.
  intros s. split; [compute_it |].
  apply (validation_of_plain_tokens s). compute_it.
Defined.

Lemma testReferences_raises_run :
  let s := after (addDependencyReference "Worker" OriginBare)
             (after (register "Worker" Scoped 1) start) in
  names_readable (ioc s) = false ∧
  ∃ x, testDependencyReferences s = (s, Throw (TypeError x)).
Proof.
  intros s. split; [compute_it |].
  apply (testReferences_raises s). compute_it.
Defined.

Lemma decorator_registers_class_run :
  isClass (CandidateFunction Samples.UserService) = true ∧
  implementations (ioc start) !! "UserService" = None ∧
  ∃ s1,
    decorator Scoped (CandidateFunction Samples.UserService) start = (s1, Return tt) ∧
    getInjectionType "UserService" s1 = (s1, Return (Some Scoped)).
Proof.
  split; [compute_it |]. split; [compute_it |].
  destruct (decorator_registers_class Scoped Samples.UserService start)
    as (s1 & H1 & _ & H2 & _); [compute_it.. |].
  by exists s1.
Defined.

Lemma decorator_rejects_non_class_run :
  isClass (CandidateFunction Samples.arrow) = false ∧
  decorator Singleton (CandidateFunction Samples.arrow) start =
    (start, Throw (DIError
       {| name := "DependencyInjectionError";
          message := "Failed to register class definition for arrow. The implementation is not a class." |})).
Proof.
  split; [compute_it |].
  rewrite (decorator_rejects_non_class Singleton (CandidateFunction Samples.arrow) start);
    [| compute_it].
  compute_it.
Defined.

Lemma memberless_class_rejected_run :
  fn_prototype Samples.Empty =
    Some {| proto_constructor := Some 21%positive;
            own_property_names := ["constructor"] |} ∧
  length ["constructor"] ≤ 1 ∧
  isClass (CandidateFunction Samples.Empty) = false.
Proof.
  split; [reflexivity |]. split; [simpl; lia |].
  apply (memberless_class_rejected Transient Samples.Empty
           {| proto_constructor := Some 21%positive;
              own_property_names := ["constructor"] |} start);
    [reflexivity | reflexivity | simpl; lia].
Defined.

Lemma same_name_decorated_twice_run :
  isClass (CandidateFunction Samples.UserService) = true ∧
  isClass (CandidateFunction Samples.OtherUserService) = true ∧
  fn_name Samples.UserService = fn_name Samples.OtherUserService ∧
  ∃ s1,
    decorator Singleton (CandidateFunction Samples.UserService) start = (s1, Return tt) ∧
    implementations (ioc s1) !! "UserService" =
      Some {| injectionType := Singleton; implementation := 20%positive |}.
Proof.
  do 3 (split; [compute_it |]).
  destruct (same_name_decorated_twice Singleton Transient
              Samples.UserService Samples.OtherUserService start)
    as (s1 & H1 & _ & H2); [compute_it.. |].
  by exists s1.
Defined.

Lemma getter_falls_back_to_resolve_run :
  let s := after (register "Db" Singleton 1) start in
  scopes (ioc s) !! VObject 9 = None ∧
  Inject_getter construct invoke (VObject 9) "Db" s = resolve construct "Db" s.
Proof.
  intros s. split; [compute_it |].
  apply (getter_falls_back_to_resolve construct invoke s (VObject 9) "Db"). compute_it.
Defined.

Lemma getter_prefers_scope_run :
  let s := after (registerScope (VObject 9) 3) (after (register "Db" Singleton 1) start) in
  let s' := after (invoke 3 "Db") (calling 3 "Db" s) in
  scopes (ioc s) !! VObject 9 = Some 3%positive ∧
  invoke 3 "Db" (calling 3 "Db" s) = (s', Return (VObject 1)) ∧
  Inject_getter construct invoke (VObject 9) "Db" s = (s', Return (VObject 1)) ∧
  trace s' = [Invoked 3 "Db"; Constructed 1].
Proof.
  intros s s'. split; [compute_it |]. split; [compute_it |]. split; [| compute_it].
  destruct (getter_prefers_scope construct invoke s (VObject 9) "Db" 3%positive s')
    as [H _]; [compute_it |].
  apply (H (VObject 1)); [compute_it | done | done].
Defined.



Lemma example_cleanup_keeps_scopes_run :
  let s := after (register "UserContainer" Scoped 1) start in
  let s' := after (construct 1 (next_ref s)) (constructing 1 s) in
  implementations (ioc s) !! "UserContainer" =
    Some {| injectionType := Scoped; implementation := 1%positive |} ∧
  construct 1 (next_ref s) (constructing 1 s) = (s', Return None) ∧
  ∃ s1 v scoped1 s2,
    handleRequest_resolve construct 3 "UserContainer" [] s = (s1, Return (v, scoped1)) ∧
    handleRequest_cleanup scoped1 s1 = (s2, Return tt) ∧
    scopes (ioc s2) !! VString "UserContainer" = Some 3%positive.
Proof.
  intros s s'. split; [compute_it |]. split; [compute_it |].
  destruct (example_cleanup_keeps_scopes app depth s 3%positive "UserContainer"
              1%positive [] s' None) as (s1 & v & scoped1 & s2 & H1 & H2 & _ & H3);
    [compute_it | reflexivity | compute_it | reflexivity |].
  by exists s1, v, scoped1, s2.
Defined.

End MoreRuns.
